(** * pyscaffold.extensions.edit: examples file rendering and re-parsing

    A shallow embedding of [src/pyscaffold/extensions/edit.py] together with
    the parts of the Python standard library it calls ([str.strip],
    [str.splitlines], [str.join], [textwrap.indent], [shlex.split],
    [shlex.quote], [sorted], [functools.lru_cache]).

    A Python [str] is a sequence of Unicode code points; it is modelled as
    [list N].  Exceptions are modelled by the [result] type; the cache kept by
    [lru_cache] and the entry points of the installed extensions form the
    [world] that [get_config] reads and updates. *)

From Stdlib Require Import NArith List Bool Lia String Ascii Sorted.
From stdpp Require Import gmap list sets.

Open Scope N_scope.

(** ** Strings *)

Abbreviation char := N (only parsing).
Abbreviation str := (list N) (only parsing).

(** A literal: the code points of an ASCII string. *)
Definition u (s : String.string) : str :=
  map N_of_ascii (list_ascii_of_string s).

(** [c in s] for a one-character [c]. *)
Definition char_in (c : char) (s : str) : bool := existsb (N.eqb c) s.

(** [str.isspace] on one code point (Py_UNICODE_ISSPACE). *)
Definition isspace (c : char) : bool :=
  ((9 <=? c) && (c <=? 13)) || ((28 <=? c) && (c <=? 32))
  || (c =? 133) || (c =? 160) || (c =? 5760)
  || ((8192 <=? c) && (c <=? 8202))
  || (c =? 8232) || (c =? 8233) || (c =? 8239) || (c =? 8287) || (c =? 12288).

(** The line boundaries of [str.splitlines] (Py_UNICODE_ISLINEBREAK). *)
Definition islinebreak (c : char) : bool :=
  ((10 <=? c) && (c <=? 13)) || ((28 <=? c) && (c <=? 30))
  || (c =? 133) || (c =? 8232) || (c =? 8233).

Definition LF : char := 10.
Definition CR : char := 13.
Definition SPACE : char := 32.
Definition HASH : char := 35.

Fixpoint lstrip (s : str) : str :=
  match s with
  | [] => []
  | c :: s' => if isspace c then lstrip s' else s
  end.

Definition rstrip (s : str) : str := rev (lstrip (rev s)).

(** [s.strip()] *)
Definition strip (s : str) : str := rstrip (lstrip s).

(** The scan of [str.splitlines]: every line as its body and its terminator
    (["\r\n"] is one terminator; the terminator of a last unterminated line
    is empty).  [cur] is the body read so far, reversed. *)
Fixpoint scan_lines (cur : str) (s : str) : list (str * str) :=
  match s with
  | [] => match cur with [] => [] | _ => [(rev cur, [])] end
  | c :: s' =>
      if islinebreak c then
        match s' with
        | d :: s'' =>
            if (c =? CR) && (d =? LF)
            then (rev cur, [c; d]) :: scan_lines [] s''
            else (rev cur, [c]) :: scan_lines [] s'
        | [] => [(rev cur, [c])]
        end
      else scan_lines (c :: cur) s'
  end.

(** [s.splitlines(keepends)] *)
Definition splitlines (keepends : bool) (s : str) : list str :=
  map (fun l => if keepends then fst l ++ snd l else fst l) (scan_lines [] s).

(** [sep.join(parts)] *)
Fixpoint join (sep : str) (parts : list str) : str :=
  match parts with
  | [] => []
  | [p] => p
  | p :: ps => p ++ sep ++ join sep ps
  end.

(** [bool(s)] for a string: non-empty. *)
Definition nonempty (s : str) : bool :=
  match s with [] => false | _ => true end.

(** [textwrap.indent(text, prefix)] with the default predicate
    [line.strip()]. *)
Definition textwrap_indent (text prefix : str) : str :=
  concat (map (fun line => if nonempty (strip line) then prefix ++ line else line)
              (splitlines true text)).

(** [sorted(l, key=len)]: the sort is stable, elements of equal length keep
    their order. *)
Fixpoint insert_by_len (x : str) (l : list str) : list str :=
  match l with
  | [] => [x]
  | y :: l' =>
      if (length x <=? length y)%nat then x :: l
      else y :: insert_by_len x l'
  end.

Fixpoint sorted_by_len (l : list str) : list str :=
  match l with
  | [] => []
  | x :: l' => insert_by_len x (sorted_by_len l')
  end.

(** ** Exceptions *)

Inductive exn : Type :=
  | AssertionError
  | IndexError
  | TypeError
  | ValueError (msg : String.string).

Inductive result (A : Type) : Type :=
  | Ok (a : A)
  | Raise (e : exn).
Arguments Ok {A} a.
Arguments Raise {A} e.

Definition rbind {A B} (r : result A) (k : A -> result B) : result B :=
  match r with
  | Ok a => k a
  | Raise e => Raise e
  end.

(** [l[-1]] *)
Definition index_last {A} (l : list A) : result A :=
  match rev l with
  | [] => Raise IndexError
  | x :: _ => Ok x
  end.

(** [l[:-1]] *)
Definition drop_last {A} (l : list A) : list A := removelast l.

(** [[f(x) for x in l]] where [f] may raise: the first exception ends the
    comprehension. *)
Fixpoint rmap {A B} (f : A -> result B) (l : list A) : result (list B) :=
  match l with
  | [] => Ok []
  | x :: l' =>
      rbind (f x) (fun y => rbind (rmap f l') (fun ys => Ok (y :: ys)))
  end.

(** ** shlex *)

(** The lexer state of [shlex.read_token]: [' '], ['a'], a quote character,
    or the escape character together with [escapedstate]. *)
Inductive lex_state : Type :=
  | LSpace
  | LWord
  | LQuote (q : char)
  | LEscape (escapedstate : lex_state).

Definition shlex_whitespace : str := [32; 9; 13; 10].
Definition shlex_quotes : str := [39; 34].
Definition shlex_escape : str := [92].
Definition shlex_escapedquotes : str := [34].
Definition BACKSLASH : char := 92.

Definition is_quote_state (st : lex_state) : option char :=
  match st with LQuote q => Some q | _ => None end.

(** [list(lex)] for [lex = shlex(s, posix=True)] with [whitespace_split] set
    and no commenters.  One pass over the input: [read_token] is re-entered
    after every emitted token with [quoted] reset and [state] kept; the end
    of the input is [nextchar == ''].  *)
Fixpoint lex (state : lex_state) (quoted : bool) (token : str) (inp : str)
  : result (list str) :=
  match inp with
  | [] =>
      match state with
      | LSpace | LWord =>
          (* state = None; a token is returned unless it is '' unquoted *)
          Ok (if nonempty token || quoted then [token] else [])
      | LQuote _ => Raise (ValueError "No closing quotation")
      | LEscape _ => Raise (ValueError "No escaped character")
      end
  | c :: rest =>
      match state with
      | LSpace =>
          if char_in c shlex_whitespace then
            if nonempty token || quoted
            then rbind (lex LSpace false [] rest) (fun ts => Ok (token :: ts))
            else lex LSpace quoted token rest
          else if char_in c shlex_escape then
            lex (LEscape LWord) quoted token rest
          else if char_in c shlex_quotes then
            lex (LQuote c) quoted token rest
          else
            (* a word character, or any other one under whitespace_split *)
            lex LWord quoted [c] rest
      | LQuote q =>
          if c =? q then lex LWord true token rest
          else if char_in c shlex_escape && char_in q shlex_escapedquotes then
            lex (LEscape (LQuote q)) true token rest
          else lex (LQuote q) true (token ++ [c]) rest
      | LEscape escapedstate =>
          let token :=
            match is_quote_state escapedstate with
            | Some q =>
                if negb (c =? BACKSLASH) && negb (c =? q)
                then token ++ [BACKSLASH] else token
            | None => token
            end in
          lex escapedstate quoted (token ++ [c]) rest
      | LWord =>
          if char_in c shlex_whitespace then
            if nonempty token || quoted
            then rbind (lex LSpace false [] rest) (fun ts => Ok (token :: ts))
            else lex LSpace quoted token rest
          else if char_in c shlex_quotes then
            lex (LQuote c) quoted token rest
          else if char_in c shlex_escape then
            lex (LEscape LWord) quoted token rest
          else lex LWord quoted (token ++ [c]) rest
      end
  end.

(** [shlex.split(s)] *)
Definition shlex_split (s : str) : result (list str) := lex LSpace false [] s.

(** The characters [shlex.quote] leaves alone: [[\w@%+=:,./-]] with
    [re.ASCII]. *)
Definition is_safe_char (c : char) : bool :=
  ((48 <=? c) && (c <=? 57)) || ((65 <=? c) && (c <=? 90))
  || ((97 <=? c) && (c <=? 122)) || (c =? 95)
  || char_in c (u "@%+=:,./-").

Definition QUOTE : char := 39.

(** [s.replace("'", "'\"'\"'")] *)
Fixpoint escape_single_quotes (s : str) : str :=
  match s with
  | [] => []
  | c :: s' =>
      (if c =? QUOTE then [39; 34; 39; 34; 39] else [c])
        ++ escape_single_quotes s'
  end.

(** [shlex.quote(s)] *)
Definition shlex_quote (s : str) : str :=
  if negb (nonempty s) then [QUOTE; QUOTE]
  else if forallb is_safe_char s then s
  else [QUOTE] ++ escape_single_quotes s ++ [QUOTE].

(** ** Python values *)

(** Any object other than [None], a [bool], a [str], a [list] or a [tuple]
    (not iterable): what [f"{o}"] gives, its truth value, and the attributes
    [flag] and [on_edit] when it has them. *)
Record pyobj : Type := {
  obj_format : str;
  obj_truth : bool;
  obj_flag : option str;
  obj_on_edit : option (gmap str (list str))
}.

Inductive pyatom : Type :=
  | ANone
  | ABool (b : bool)
  | AStr (s : str)
  | AObj (o : pyobj).

Inductive pyval : Type :=
  | VAtom (a : pyatom)
  | VList (l : list pyatom)
  | VTuple (l : list pyatom).

(** [bool(v)] *)
Definition truthy (v : pyval) : bool :=
  match v with
  | VAtom ANone => false
  | VAtom (ABool b) => b
  | VAtom (AStr s) => nonempty s
  | VAtom (AObj o) => obj_truth o
  | VList l | VTuple l => match l with [] => false | _ => true end
  end.

(** [f"{a}"] *)
Definition format_atom (a : pyatom) : str :=
  match a with
  | ANone => u "None"
  | ABool true => u "True"
  | ABool false => u "False"
  | AStr s => s
  | AObj o => obj_format o
  end.

(** [v is None] *)
Definition is_none (v : pyval) : bool :=
  match v with VAtom ANone => true | _ => false end.

(** [[x for x in v]] *)
Definition iterate (v : pyval) : result (list pyatom) :=
  match v with
  | VList l | VTuple l => Ok l
  | VAtom (AStr s) => Ok (map (fun c => AStr [c]) s)
  | VAtom _ => Raise TypeError
  end.

(** [getattr(x, "flag", None)] *)
Definition getattr_flag (x : pyatom) : option str :=
  match x with AObj o => obj_flag o | _ => None end.

(** [ScaffoldOpts]: a [dict] from option names to values. *)
Abbreviation Opts := (gmap (list N) pyval) (only parsing).

(** [opts.get(key)] *)
Definition opts_get (opts : Opts) (key : str) : pyval :=
  default (VAtom ANone) (opts !! key).

(** [opts.get(key, [])] *)
Definition opts_get_list (opts : Opts) (key : str) : pyval :=
  default (VList []) (opts !! key).

(** ** argparse *)

Inductive nargs_t : Type :=
  | NargsNone
  | NargsInt (n : N)
  | NargsStr (s : str).

Record Action : Type := {
  option_strings : list str;
  dest : str;
  nargs : nargs_t;
  metavar : option str;
  help : option str
}.

(** What this module uses of an [ArgumentParser]: [parser._actions] and
    [parser._get_formatter()._format_args]. *)
Record ArgumentParser : Type := {
  _actions : list Action;
  format_args : Action -> str -> str
}.

(** [action.nargs == 0] *)
Definition nargs_is_zero (n : nargs_t) : bool :=
  match n with NargsInt 0 => true | _ => false end.

(** ** The process state *)

(** [cache]: what [lru_cache] has stored for [get_config], by argument.
    [maxsize=2] never evicts: a call that fails its assertion stores nothing,
    so only the two keys of [CONFIG] are ever stored.
    [installed]: the objects [iterate_entry_points()] yields, one for each
    extension registered in the entry-point group of PyScaffold. *)
Record world : Type := {
  cache : gmap str (gset str);
  installed : list pyobj
}.

Definition M (A : Type) : Type := world -> result (A * world).

Definition ret {A} (a : A) : M A := fun w => Ok (a, w).

Definition bind {A B} (m : M A) (k : A -> M B) : M B :=
  fun w => match m w with
           | Ok (a, w') => k a w'
           | Raise e => Raise e
           end.

Definition lift {A} (r : result A) : M A :=
  fun w => match r with Ok a => Ok (a, w) | Raise e => Raise e end.

Notation "'do' x <- m ; k" := (bind m (fun x => k))
  (at level 10, x name, m at level 100, k at level 200).

(** [@lru_cache] on a function of one string argument. *)
Definition lru_cache (f : str -> M (gset str)) (arg : str) : M (gset str) :=
  fun w =>
    match cache w !! arg with
    | Some s => Ok (s, w)
    | None =>
        match f arg w with
        | Ok (s, w') =>
            Ok (s, {| cache := <[arg := s]> (cache w'); installed := installed w' |})
        | Raise e => Raise e
        end
    end.

(** [functools.reduce(f, l, initial)] *)
Definition reduce {A B} (f : A -> B -> A) (l : list B) (initial : A) : A :=
  fold_left f l initial.

(** ** edit.py *)

Definition INDENT_LEVEL : nat := 4.

Definition CONFIG : gmap str (list str) :=
  {[ u "ignore" := [u "--help"; u "--version"];
     u "comment" := [u "--verbose"; u "--very-verbose"] ]}.

Definition _reducer (kind : str) (acc : gset str) (ext : pyobj) : gset str :=
  let config_from_ext :=
    default ({[ u "ignore" := []; u "comment" := [] ]} : gmap str (list str))
            (obj_on_edit ext) in
  acc ∪ list_to_set (default [] (config_from_ext !! kind)).

(** The body of [get_config], under the decorator ([assert] statements are
    executed: Python is not run with [-O]). *)
Definition get_config_body (kind : str) : M (gset str) :=
  fun w =>
    match CONFIG !! kind with
    | None => Raise AssertionError
    | Some base =>
        let initial_value : gset str := list_to_set base in
        Ok (reduce (_reducer kind) (installed w) initial_value, w)
    end.

Definition get_config : str -> M (gset str) := lru_cache get_config_body.

(** [class Edit]: its class attributes [flag] and [on_edit]. *)
Definition Edit : pyobj := {|
  obj_format := u "<pyscaffold.extensions.edit.Edit object>";
  obj_truth := true;
  obj_flag := Some (u "--edit");
  obj_on_edit := Some {[ u "ignore" := [u "--edit"] ]}
|}.

Ltac by_compute := vm_compute; reflexivity.
Ltac elem_by_compute := apply (bool_decide_eq_true_1 _); by_compute.
Ltac not_elem_by_compute := apply (bool_decide_eq_false_1 _); by_compute.

Section Edit.

(** [os.linesep] *)
Variable linesep : str.

(** [textwrap.wrap(text, width)] *)
Variable textwrap_wrap : str -> nat -> list str.

(** [templates.get_template("header_edit").template] *)
Variable HEADER : str.

(** [get_default_options({}, api.bootstrap_options(opts))], of which the
    options are kept. *)
Variable bootstrap_default_options : Opts -> result Opts.

(** Writing the content to a fresh temporary file, [shell.edit] on that
    file, and reading the text back. *)
Variable edit_tmpfile : str -> result str.

(** [cli.main] *)
Variable cli_main : list str -> M unit.

Definition expand_computed_opts (opts : Opts) : result Opts :=
  bootstrap_default_options opts.

Definition wrap (text : option str) (width : nat) : str :=
  join linesep (textwrap_wrap (default [] text) width).

Definition comment (text : str) (comment_mark : str) (indent_level : nat) : str :=
  textwrap_indent text (repeat SPACE indent_level ++ comment_mark ++ u " ").

Definition join_block (parts : list str) (sep : str) : str :=
  join sep (filter (fun p => nonempty p = true) parts).

Definition long_option (action : Action) : result str :=
  index_last (sorted_by_len (match option_strings action with
                             | [] => [ [] ]
                             | l => l
                             end)).

Definition alternative_flags (action : Action) : str :=
  let opts := drop_last (sorted_by_len (option_strings action)) in
  match opts with
  | [] => []
  | _ => u "(or alternatively: " ++ join (u " ") opts ++ u ")"
  end.

Definition has_active_extension (action : Action) (opts : Opts) : result bool :=
  rbind (iterate (opts_get_list opts (u "extensions"))) (fun exts =>
  let ext_flags := map getattr_flag exts in
  Ok (existsb (fun f => bool_decide (Some f ∈ ext_flags)) (option_strings action))).

Definition example_no_value (parser : ArgumentParser) (action : Action)
    (opts : Opts) : M str :=
  do long <- lift (long_option action) ;
  do config <- get_config (u "comment") ;
  if negb (bool_decide (long ∈ config))
     && (negb (bool_decide (dest action = u "extensions"))
         && truthy (opts_get opts (dest action)))
  then ret (u " " ++ long)
  else
    do active <- lift (has_active_extension action opts) ;
    if active then ret (u " " ++ long)
    else ret (comment long (u "#") 0).

Definition example_with_value (parser : ArgumentParser) (action : Action)
    (opts : Opts) : M str :=
  do long <- lift (long_option action) ;
  let arg := opts_get opts (dest action) in
  let args := match arg with
              | VList l | VTuple l => l
              | VAtom a => [a]
              end in
  let value := strip (join (u " ") (map (fun a => shlex_quote (format_atom a)) args)) in
  let commented :=
    comment (strip (long ++ u " " ++ format_args parser action (dest action)))
            (u "#") 0 in
  if is_none arg then ret commented
  else
    do config <- get_config (u "comment") ;
    if bool_decide (long ∈ config) || negb (nonempty value)
    then ret commented
    else ret (u " " ++ long ++ u " " ++ value).

Definition example (parser : ArgumentParser) (action : Action) (opts : Opts)
  : M str :=
  if nargs_is_zero (nargs action)
  then example_no_value parser action opts
  else example_with_value parser action opts.

Definition example_with_help (parser : ArgumentParser) (action : Action)
    (opts : Opts) : M str :=
  do ex <- example parser action opts ;
  ret (join_block [ ex;
                    comment (alternative_flags action) (u "#") INDENT_LEVEL;
                    comment (wrap (help action) 70) (u "#") INDENT_LEVEL ]
                  linesep).

(** The generator of [all_examples]: the filter and the rendering of each
    action, in order. *)
Fixpoint all_examples_parts (parser : ArgumentParser) (actions : list Action)
    (opts : Opts) : M (list str) :=
  match actions with
  | [] => ret []
  | a :: rest =>
      do long <- lift (long_option a) ;
      do ignored <- get_config (u "ignore") ;
      if bool_decide (long ∈ ignored)
      then all_examples_parts parser rest opts
      else
        do part <- example_with_help parser a opts ;
        do parts <- all_examples_parts parser rest opts ;
        ret (part :: parts)
  end.

Definition all_examples (parser : ArgumentParser) (actions : list Action)
    (opts : Opts) : M str :=
  do parts <- all_examples_parts parser actions opts ;
  ret (join_block parts (linesep ++ linesep ++ linesep)).

Definition kept_line (x : str) : bool :=
  match x with
  | [] => false
  | c :: _ => negb (c =? HASH)
  end.

Definition split_args (text : str) : result (list str) :=
  let lines := map strip (splitlines false text) in
  rbind (rmap shlex_split (filter (fun x => kept_line x = true) lines))
        (fun tokens => Ok (concat tokens)).


(** [Edit.command], [self.parser] being [parser]. *)
Definition command (parser : ArgumentParser) (opts : Opts) : M unit :=
  do opts <- lift (expand_computed_opts opts) ;
  do examples <- all_examples parser (_actions parser) opts ;
  let content := join (linesep ++ linesep) [HEADER; examples] in
  do content <- lift (edit_tmpfile content) ;
  do args <- lift (split_args content) ;
  cli_main args.

(** The value a computation returns, without the final state. *)
Definition eval {A} (m : M A) (w : world) : result A :=
  match m w with
  | Ok (a, _) => Ok a
  | Raise e => Raise e
  end.

(** The canonical spelling of an action: what [long_option] returns. *)
Definition canonical (action : Action) : str :=
  match long_option action with
  | Ok s => s
  | Raise _ => []
  end.

(** What one installed object contributes to the set of [kind]. *)
Definition contribution (kind : str) (ext : pyobj) : gset str :=
  match obj_on_edit ext with
  | None => ∅
  | Some declared => list_to_set (default [] (declared !! kind))
  end.

(** The cache holds entries for the keys of [CONFIG] only, as is the case in
    every state reached from the empty cache. *)
Definition cache_ok (w : world) : Prop :=
  forall k, is_Some (cache w !! k) -> is_Some (CONFIG !! k).

(** [w'] may have more cached entries than [w], agreeing with what
    [get_config] computes in [w]. *)
Definition extends (w w' : world) : Prop :=
  forall kind, eval (get_config kind) w' = eval (get_config kind) w.

(** A computation that uses the state through [get_config] only. *)
Definition stable {A} (m : M A) : Prop :=
  forall w,
    (forall a w', m w = Ok (a, w') -> extends w w') /\
    (forall w2, extends w w2 -> eval m w2 = eval m w).

(** [w'] has cached at least what [w] has. *)
Definition grows (w w' : world) : Prop := cache w ⊆ cache w'.

(** A computation that only adds to the cache and, run again in a state
    that has cached at least as much as the one it left, returns the same
    value and changes nothing. *)
Definition settles {A} (m : M A) : Prop :=
  forall w a w',
    m w = Ok (a, w') ->
    grows w w' /\ forall w2, grows w' w2 -> m w2 = Ok (a, w2).

(** A computation that keeps a property of the state. *)
Definition preserves {A} (I : world -> Prop) (m : M A) : Prop :=
  forall w a w', I w -> m w = Ok (a, w') -> I w'.

(** Concatenation of two token lists, either of which may be an error. *)
Definition rapp {A} (r1 r2 : result (list A)) : result (list A) :=
  rbind r1 (fun x => rbind r2 (fun y => Ok (x ++ y))).

(** The tokens of one physical line. *)
Definition line_tokens (line : str) : result (list str) :=
  if kept_line (strip line) then shlex_split (strip line) else Ok [].

(** A line that yields no token: blank, or a comment. *)
Definition inert_line (line : str) : Prop :=
  strip line = [] \/ head (strip line) = Some HASH.

(** The tokens of a list of physical lines, in order; the first line that
    fails to tokenize gives the error. *)
Definition lines_tokens (lines : list str) : result (list str) :=
  foldr (fun line acc => rapp (line_tokens line) acc) (Ok []) lines.

(** The tokens of the lines that [scan_lines] finds, [cur] being the part
    of the first line already read. *)
Definition scan_tokens (cur s : list N) : result (list (list N)) :=
  lines_tokens (map fst (scan_lines cur s)).

(** A line terminator: one line-break character, or ["\r\n"]. *)
Definition is_terminator (t : str) : Prop :=
  (exists c, islinebreak c = true /\ t = [c]) \/ t = [CR; LF].

(** The shape of what [scan_lines] returns: bodies without line breaks, every
    line terminated except possibly the last one. *)
Fixpoint lines_wf (ls : list (str * str)) : Prop :=
  match ls with
  | [] => True
  | (b, t) :: ls' =>
      Forall (fun c => islinebreak c = false) b
      /\ ((t = [] /\ ls' = []) \/ is_terminator t)
      /\ lines_wf ls'
  end.

(** The first of the lines is empty and terminated by a line feed. *)
Definition first_is_LF (ls : list (str * str)) : Prop :=
  exists t ls', ls = ([], LF :: t) :: ls'.

(** The lines that [scan_lines] returns, exactly: besides [lines_wf], an
    unterminated last line is not empty, and a line terminated by a lone
    carriage return is not followed by an empty line terminated by a line
    feed. *)
Fixpoint lines_exact (ls : list (str * str)) : Prop :=
  match ls with
  | [] => True
  | (b, t) :: ls' =>
      Forall (fun c => islinebreak c = false) b
      /\ ((t = [] /\ ls' = [] /\ b <> [])
          \/ (is_terminator t /\ (t = [CR] -> ~ first_is_LF ls')))
      /\ lines_exact ls'
  end.

(** What [textwrap.indent] does to one line, given as body and terminator. *)
Definition indent_line (prefix : str) (l : str * str) : str * str :=
  (if nonempty (strip (fst l ++ snd l)) then prefix ++ fst l else fst l, snd l).

(** The block of an action, given its example line: what [example_with_help]
    builds around the result of [example]. *)
Definition with_help (action : Action) (ex : str) : str :=
  join_block [ ex;
               comment (alternative_flags action) (u "#") INDENT_LEVEL;
               comment (wrap (help action) 70) (u "#") INDENT_LEVEL ]
             linesep.

(** The actions that are not ignored, each with its example line: the
    generator of [all_examples] with [example] in place of
    [example_with_help]. *)
Fixpoint example_lines (parser : ArgumentParser) (actions : list Action)
    (opts : Opts) : M (list (Action * str)) :=
  match actions with
  | [] => ret []
  | a :: rest =>
      do long <- lift (long_option a) ;
      do ignored <- get_config (u "ignore") ;
      if bool_decide (long ∈ ignored)
      then example_lines parser rest opts
      else
        do line <- example parser a opts ;
        do lines <- example_lines parser rest opts ;
        ret ((a, line) :: lines)
  end.

(** [os.linesep] is made of line breaks (["\n"], ["\r\n"] or ["\r"]). *)
Definition linesep_ok : Prop :=
  linesep <> [] /\ forallb islinebreak linesep = true.

(** A line that is blank, or whose first character after the leading white
    space is ['#']. *)
Definition commented_or_blank (line : str) : Prop :=
  strip line <> [] -> head (lstrip line) = Some HASH.

Definition commented_or_blankb (line : str) : bool :=
  match lstrip line with
  | [] => true
  | c :: _ => c =? HASH
  end.

(** The parse step in the words of the specification: of the physical
    lines, those that are empty or start with the comment marker once the
    leading white space is trimmed are dropped; each remaining line is
    tokenized; the tokens are flattened in order. *)
Definition parse_step (text : str) : result (list str) :=
  let remaining :=
    List.filter (fun line => match lstrip line with
                             | [] => false
                             | c :: _ => negb (c =? HASH)
                             end)
                (splitlines false text) in
  rbind (rmap (fun line => shlex_split (strip line)) remaining)
        (fun tokens => Ok (concat tokens)).

(** ** The edited file, in the words of the specification *)

(** White space, by code point: what is trimmed from a line. *)
Definition white_space : str :=
  [9; 10; 11; 12; 13; 28; 29; 30; 31; 32; 133; 160; 5760;
   8192; 8193; 8194; 8195; 8196; 8197; 8198; 8199; 8200; 8201; 8202;
   8232; 8233; 8239; 8287; 12288].

(** The characters that end a physical line. *)
Definition line_boundaries : str :=
  [10; 11; 12; 13; 28; 29; 30; 133; 8232; 8233].

(** What separates the words of a command line: space, tab, carriage
    return, line feed. *)
Definition is_blank (c : char) : bool :=
  (c =? 32) || (c =? 9) || (c =? 13) || (c =? 10).

(** Inside double quotes: a character other than the double quote (34) and
    the backslash (92), or a backslash and the character after it. *)
Inductive dq_item : Type :=
  | DChar (c : char)
  | DEsc (c : char).

(** The pieces of a shell word: a character that is not special, a
    backslash and the character it escapes, a text between single quotes
    (39), items between double quotes. *)
Inductive segment : Type :=
  | Plain (c : char)
  | Escaped (c : char)
  | Single (s : str)
  | Double (items : list dq_item).

Definition dq_item_ok (i : dq_item) : bool :=
  match i with
  | DChar c => negb (c =? 34) && negb (c =? 92)
  | DEsc _ => true
  end.

Definition dq_item_text (i : dq_item) : str :=
  match i with
  | DChar c => [c]
  | DEsc c => [92; c]
  end.

(** Between double quotes the backslash escapes the double quote and the
    backslash only; before any other character it stands for itself. *)
Definition dq_item_value (i : dq_item) : str :=
  match i with
  | DChar c => [c]
  | DEsc c => if (c =? 34) || (c =? 92) then [c] else [92; c]
  end.

Definition segment_ok (s : segment) : bool :=
  match s with
  | Plain c =>
      negb (is_blank c) && negb (c =? 39) && negb (c =? 34) && negb (c =? 92)
  | Escaped _ => true
  | Single s => forallb (fun c => negb (c =? 39)) s
  | Double items => forallb dq_item_ok items
  end.

(** The piece as it is written in the file. *)
Definition segment_text (s : segment) : str :=
  match s with
  | Plain c => [c]
  | Escaped c => [92; c]
  | Single s => [39] ++ s ++ [39]
  | Double items => [34] ++ concat (map dq_item_text items) ++ [34]
  end.

(** What the piece stands for: quotes and escaping backslashes removed. *)
Definition segment_value (s : segment) : str :=
  match s with
  | Plain c => [c]
  | Escaped c => [c]
  | Single s => s
  | Double items => concat (map dq_item_value items)
  end.

Definition segment_quoted (s : segment) : bool :=
  match s with
  | Single _ | Double _ => true
  | Plain _ | Escaped _ => false
  end.

(** A word has at least one piece. *)
Definition word_ok (w : list segment) : bool :=
  match w with [] => false | _ => forallb segment_ok w end.

Definition word_text (w : list segment) : str := concat (map segment_text w).

Definition word_value (w : list segment) : str := concat (map segment_value w).

(** The words of a command line, each with the blanks that follow it: there
    is at least one blank between two words. *)
Fixpoint seps_ok (l : list (list segment * str)) : bool :=
  match l with
  | [] => true
  | (_, sep) :: rest =>
      forallb is_blank sep
      && (nonempty sep || match rest with [] => true | _ => false end)
      && seps_ok rest
  end.

Definition words_ok (l : list (list segment * str)) : bool :=
  forallb (fun ws => word_ok (fst ws)) l && seps_ok l.

Definition words_text (l : list (list segment * str)) : str :=
  concat (map (fun ws => word_text (fst ws) ++ snd ws) l).

Definition words_values (l : list (list segment * str)) : list str :=
  map (fun ws => word_value (fst ws)) l.

(** A physical line of the file, without its terminator: white space only;
    white space, the comment marker and any text; or words between white
    space. *)
Inductive file_line : Type :=
  | BlankLine (ws : str)
  | CommentLine (ws : str) (text : str)
  | ArgsLine (lead : str) (words : list (list segment * str)) (trail : str).

Definition no_boundary (s : str) : bool :=
  forallb (fun c => negb (char_in c line_boundaries)) s.

Definition all_white (s : str) : bool :=
  forallb (fun c => char_in c white_space) s.

(** The words of an arguments line start with a character that is neither
    white space nor the comment marker, and end with one that is not white
    space. *)
Definition file_line_ok (l : file_line) : bool :=
  match l with
  | BlankLine ws => all_white ws && no_boundary ws
  | CommentLine ws text => all_white ws && no_boundary ws && no_boundary text
  | ArgsLine lead words trail =>
      all_white lead && no_boundary lead
      && all_white trail && no_boundary trail
      && words_ok words && no_boundary (words_text words)
      && match words_text words with
         | c :: _ => negb (char_in c white_space) && negb (c =? 35)
         | [] => false
         end
      && match rev (words_text words) with
         | d :: _ => negb (char_in d white_space)
         | [] => false
         end
  end.

Definition file_line_text (l : file_line) : str :=
  match l with
  | BlankLine ws => ws
  | CommentLine ws text => ws ++ [35] ++ text
  | ArgsLine lead words trail => lead ++ words_text words ++ trail
  end.

(** The arguments a line stands for. *)
Definition file_line_values (l : file_line) : list str :=
  match l with
  | BlankLine _ | CommentLine _ _ => []
  | ArgsLine _ words _ => words_values words
  end.

(** A line with its terminator: one or more line boundaries. *)
Definition terminated_ok (lt : file_line * str) : bool :=
  file_line_ok (fst lt) && nonempty (snd lt)
  && forallb (fun c => char_in c line_boundaries) (snd lt).

(** The text of a file: terminated lines, and a last line that need not be
    terminated. *)
Definition file_text (lines : list (file_line * str)) (last : file_line)
  : str :=
  concat (map (fun lt => file_line_text (fst lt) ++ snd lt) lines)
  ++ file_line_text last.

Definition file_values (lines : list (file_line * str)) (last : file_line)
  : list str :=
  concat (map (fun lt => file_line_values (fst lt)) lines)
  ++ file_line_values last.

(** A word written without quotes or backslashes. *)
Definition plain (s : str) : list segment := map Plain s.

(** [arg if isinstance(arg, (list, tuple)) else [arg]] *)
Definition members (arg : pyval) : list pyatom :=
  match arg with
  | VList l | VTuple l => l
  | VAtom a => [a]
  end.

(** A string that neither starts nor ends with white space, and does not
    start with ['#'] (so it is not empty). *)
Definition tight (s : str) : Prop :=
  (exists c r, s = c :: r /\ isspace c = false /\ (c =? HASH) = false) /\
  (exists d r, rev s = d :: r /\ isspace d = false).

(** The value of an option as [example_with_value] writes it: every member
    quoted for the shell, joined by spaces, stripped. *)
Definition quoted_value (arg : pyval) : str :=
  let args := match arg with
              | VList l | VTuple l => l
              | VAtom a => [a]
              end in
  strip (join (u " ") (map (fun a => shlex_quote (format_atom a)) args)).

(** ** Sample data *)

Definition posix_linesep : str := [LF].

(** [textwrap.wrap] on a text that is one short line without leading,
    trailing or repeated white space. *)
Definition wrap_short (text : str) (width : nat) : list str :=
  match text with [] => [] | _ => [text] end.

(** A formatter for actions with [nargs=None]: the metavar, or the default. *)
Definition sample_format_args (action : Action) (default_metavar : str) : str :=
  default default_metavar (metavar action).

Definition verbose_action : Action :=
  {| option_strings := [u "-v"; u "--verbose"]; dest := u "log_level";
     nargs := NargsInt 0; metavar := None;
     help := Some (u "show additional information") |}.

Definition force_action : Action :=
  {| option_strings := [u "-f"; u "--force"]; dest := u "force";
     nargs := NargsInt 0; metavar := None;
     help := Some (u "force overwriting an existing directory") |}.

Definition help_action : Action :=
  {| option_strings := [u "-h"; u "--help"]; dest := u "help";
     nargs := NargsInt 0; metavar := None;
     help := Some (u "show this help message and exit") |}.

Definition name_action : Action :=
  {| option_strings := [u "-n"; u "--name"]; dest := u "name";
     nargs := NargsNone; metavar := Some (u "NAME");
     help := Some (u "installable name") |}.

Definition license_action : Action :=
  {| option_strings := [u "-l"; u "--license"]; dest := u "license";
     nargs := NargsNone; metavar := Some (u "LICENSE");
     help := Some (u "package license") |}.

Definition description_action : Action :=
  {| option_strings := [u "-d"; u "--description"]; dest := u "description";
     nargs := NargsNone; metavar := Some (u "TEXT");
     help := Some (u "package description") |}.

(** The flag of [Edit], as [Edit.augment_cli] registers it (the help text
    comes from the base class; this one stands in for it). *)
Definition edit_action : Action :=
  {| option_strings := [u "--edit"]; dest := u "command";
     nargs := NargsInt 0; metavar := None;
     help := Some (u "choose the options by editing a file") |}.

(** An extension's flag, as [Extension.augment_cli] registers it. *)
Definition cirrus_action : Action :=
  {| option_strings := [u "--cirrus"]; dest := u "extensions";
     nargs := NargsInt 0; metavar := None;
     help := Some (u "add configuration for Cirrus CI") |}.

(** A [store_true] positional without help text. *)
Definition flagless_action : Action :=
  {| option_strings := []; dest := u "quiet";
     nargs := NargsInt 0; metavar := None; help := None |}.

(** An extension that asks for its own flag to be commented. *)
Definition Cirrus : pyobj := {|
  obj_format := u "<pyscaffoldext.cirrus.Cirrus object>";
  obj_truth := true;
  obj_flag := Some (u "--cirrus");
  obj_on_edit := Some {[ u "comment" := [u "--cirrus"] ]}
|}.

(** What [iterate_entry_points()] yields for the extension [Edit]: the
    [EntryPoint] that names the class, not the class nor an instance of it.
    An entry point has neither [flag] nor [on_edit]. *)
Definition edit_entry_point : pyobj := {|
  obj_format :=
    u "EntryPoint(name='edit', value='pyscaffold.extensions.edit:Edit', group='pyscaffold.cli')";
  obj_truth := true;
  obj_flag := None;
  obj_on_edit := None
|}.





(** An extension without the [on_edit] attribute. *)
Definition Travis : pyobj := {|
  obj_format := u "<pyscaffoldext.travis.Travis object>";
  obj_truth := true;
  obj_flag := Some (u "--travis");
  obj_on_edit := None
|}.

Definition sample_parser : ArgumentParser :=
  {| _actions := [help_action; verbose_action; force_action; name_action;
                  license_action; description_action];
     format_args := sample_format_args |}.

Definition fresh_world (exts : list pyobj) : world :=
  {| cache := ∅; installed := exts |}.

Definition sample_opts : Opts :=
  {[ u "name" := VAtom (AStr (u "myproj"));
     u "license" := VAtom (AStr (u "MIT")) ]}.

(** The extension [Cirrus] was asked for on the command line. *)
Definition cirrus_opts : Opts :=
  {[ u "extensions" := VList [AObj Cirrus] ]}.

(** Only [Travis] was asked for. *)
Definition travis_opts : Opts :=
  {[ u "extensions" := VList [AObj Travis] ]}.

Definition force_opts : Opts :=
  {[ u "force" := VAtom (ABool true) ]}.

(** The name holds a line break. *)
Definition multiline_name_opts : Opts :=
  {[ u "name" := VAtom (AStr (u "my" ++ [LF] ++ u "proj")) ]}.

(** The description is the empty string. *)
Definition empty_description_opts : Opts :=
  {[ u "description" := VAtom (AStr []) ]}.

(** The license is an empty list. *)
Definition empty_license_opts : Opts :=
  {[ u "license" := VList [] ]}.

(** A line with a quote that is never closed, after a comment. *)
Definition malformed_text : str :=
  u "# options" ++ [LF] ++ u " --name 'my project" ++ [LF] ++ u " --force".

(** An extension that asks for [--license] to be commented. *)
Definition Unlicensed : pyobj := {|
  obj_format := u "<pyscaffoldext.unlicensed.Unlicensed object>";
  obj_truth := true;
  obj_flag := Some (u "--unlicensed");
  obj_on_edit := Some {[ u "comment" := [u "--license"] ]}
|}.

(** A header made of one comment line. *)
Definition sample_header : str := u "# Edit the options below".

(** The user saves the file as it is. *)
Definition edit_unchanged (content : str) : result str := Ok content.

(** The user leaves a quote open. *)
Definition edit_malformed (content : str) : result str := Ok malformed_text.

(** No computed option is added. *)
Definition expand_nothing (opts : Opts) : result Opts := Ok opts.

Definition cli_main_done (args : list str) : M unit := ret tt.

(** A file with quoted and escaped words.  Its lines: a comment; the name
    in single quotes, ended by a carriage return and a line feed; an empty
    line; after a tab, a description in double quotes, in which the double
    quote and the backslash are escaped and a backslash stands before the
    letter n; a word with an escaped space and an empty pair of single
    quotes, then a word that starts with the comment marker. *)
Definition quoted_text : str :=
  u "# putup options" ++ [LF]
  ++ u " --name 'my project'" ++ [CR; LF]
  ++ [LF]
  ++ [9] ++ u "--description "
  ++ [34] ++ u "say \" ++ [34] ++ u "hi\" ++ [34] ++ u " \\ \n" ++ [34]
  ++ u " " ++ [LF]
  ++ u " --url a\ b''c #d".

(** The same file, line by line. *)
Definition quoted_lines : list (file_line * str) :=
  [ (CommentLine [] (u " putup options"), [LF]);
    (ArgsLine (u " ")
              [ (plain (u "--name"), u " ");
                ([Single (u "my project")], []) ]
              [], [CR; LF]);
    (BlankLine [], [LF]);
    (ArgsLine [9]
              [ (plain (u "--description"), u " ");
                ([Double (map DChar (u "say ") ++ [DEsc 34]
                          ++ map DChar (u "hi") ++ [DEsc 34; DChar 32;
                                                   DEsc 92; DChar 32;
                                                   DEsc 110])], []) ]
              (u " "), [LF]) ].

Definition quoted_last_line : file_line :=
  ArgsLine (u " ")
           [ (plain (u "--url"), u " ");
             ([Plain 97; Escaped 32; Plain 98; Single []; Plain 99], u " ");
             (plain (u "#d"), []) ]
           [].

(** The text ["  # comment\n --name foo \n\n"]. *)
Definition sample_text : str :=
  u "  # comment" ++ [LF] ++ u " --name foo " ++ [LF; LF].

(** ** The error and state monads *)

Lemma rbind_ok {A B} (r : result A) (k : A -> result B) (b : B) :
  rbind r k = Ok b -> exists a, r = Ok a /\ k a = Ok b.
Proof. destruct r as [a|e]; simpl; [eauto | discriminate]. Qed.

Lemma rapp_nil_l {A} (r : result (list A)) : rapp (Ok []) r = r.
Proof. destruct r; reflexivity. Qed.

Lemma rapp_nil_r {A} (r : result (list A)) : rapp r (Ok []) = r.
Proof. destruct r as [x|e]; simpl; [by rewrite app_nil_r | done]. Qed.

Lemma rapp_assoc {A} (r1 r2 r3 : result (list A)) :
  rapp (rapp r1 r2) r3 = rapp r1 (rapp r2 r3).
Proof.
  destruct r1 as [x|], r2 as [y|], r3 as [z|]; simpl; try done.
  by rewrite app_assoc.
Qed.

Lemma bind_ok {A B} (m : M A) (k : A -> M B) w b w' :
  bind m k w = Ok (b, w') ->
  exists a w1, m w = Ok (a, w1) /\ k a w1 = Ok (b, w').
Proof.
  unfold bind. destruct (m w) as [[a w1]|e]; [eauto | discriminate].
Qed.

Lemma bind_unfold {A B} (m : M A) (k : A -> M B) w :
  bind m k w = match m w with
               | Ok (a, w') => k a w'
               | Raise e => Raise e
               end.
Proof. reflexivity. Qed.

Lemma eval_ok {A} (m : M A) w a w' : m w = Ok (a, w') -> eval m w = Ok a.
Proof. unfold eval. by intros ->. Qed.

Lemma eval_ok_inv {A} (m : M A) w a :
  eval m w = Ok a -> exists w', m w = Ok (a, w').
Proof.
  unfold eval. destruct (m w) as [[a' w']|e]; intros H; inversion H; eauto.
Qed.

(** ** long_option *)

Lemma insert_by_len_not_nil x l : insert_by_len x l <> [].
Proof. destruct l as [|y l]; simpl; [done | by case_match]. Qed.

Lemma sorted_by_len_not_nil l : l <> [] -> sorted_by_len l <> [].
Proof. destruct l; [done | intros _; apply insert_by_len_not_nil]. Qed.

Lemma index_last_ok {A} (l : list A) : l <> [] -> exists x, index_last l = Ok x.
Proof.
  intros Hl. unfold index_last.
  destruct (rev l) as [|x r] eqn:E; [|eauto].
  apply (f_equal (@rev A)) in E. rewrite rev_involutive in E. done.
Qed.

(** [long_option] never raises: the list that is sorted is never empty. *)
Lemma long_option_ok (action : Action) :
  long_option action = Ok (canonical action).
Proof.
  unfold canonical.
  destruct (index_last_ok (sorted_by_len (match option_strings action with
                                          | [] => [ [] ]
                                          | l => l
                                          end))) as [x Hx].
  - apply sorted_by_len_not_nil. by destruct (option_strings action).
  - unfold long_option. by rewrite Hx.
Qed.

(** ** get_config and the cache *)

Lemma get_config_hit kind w s :
  cache w !! kind = Some s -> get_config kind w = Ok (s, w).
Proof. unfold get_config, lru_cache. by intros ->. Qed.

Lemma get_config_miss kind w base :
  cache w !! kind = None -> CONFIG !! kind = Some base ->
  get_config kind w =
    Ok (reduce (_reducer kind) (installed w) (list_to_set base),
        {| cache := <[kind := reduce (_reducer kind) (installed w) (list_to_set base)]> (cache w);
           installed := installed w |}).
Proof.
  intros Hc Hk. unfold get_config, lru_cache, get_config_body.
  by rewrite Hc, Hk.
Qed.

Lemma get_config_invalid kind w :
  cache w !! kind = None -> CONFIG !! kind = None ->
  get_config kind w = Raise AssertionError.
Proof.
  intros Hc Hk. unfold get_config, lru_cache, get_config_body.
  by rewrite Hc, Hk.
Qed.

Lemma CONFIG_ignore : CONFIG !! u "ignore" = Some [u "--help"; u "--version"].
Proof. reflexivity. Qed.

Lemma CONFIG_comment :
  CONFIG !! u "comment" = Some [u "--verbose"; u "--very-verbose"].
Proof. reflexivity. Qed.

Lemma CONFIG_keys kind :
  is_Some (CONFIG !! kind) <-> kind = u "ignore" \/ kind = u "comment".
Proof.
  unfold CONFIG. split.
  - intros [l Hl].
    destruct (decide (kind = u "ignore")) as [|N1]; [by left|].
    destruct (decide (kind = u "comment")) as [|N2]; [by right|].
    rewrite lookup_insert_ne in Hl by done.
    rewrite lookup_singleton_ne in Hl by done. done.
  - intros [-> | ->]; eexists; reflexivity.
Qed.

Lemma get_config_inv kind w s w' :
  get_config kind w = Ok (s, w') ->
  (cache w !! kind = Some s /\ w' = w) \/
  (cache w !! kind = None /\ installed w' = installed w /\
   cache w' = <[kind := s]> (cache w) /\
   exists base, CONFIG !! kind = Some base /\
                s = reduce (_reducer kind) (installed w) (list_to_set base)).
Proof.
  unfold get_config, lru_cache, get_config_body.
  destruct (cache w !! kind) as [s0|] eqn:Hc.
  - intros H; inversion H; subst. by left.
  - destruct (CONFIG !! kind) as [base|] eqn:Hk; [|discriminate].
    intros H; inversion H; subst. right. simpl. eauto 10.
Qed.

Lemma get_config_total kind w :
  is_Some (CONFIG !! kind) -> exists s w', get_config kind w = Ok (s, w').
Proof.
  intros [base Hk].
  destruct (cache w !! kind) as [s|] eqn:Hc.
  - exists s, w. by apply get_config_hit.
  - eexists _, _. by apply get_config_miss.
Qed.

Lemma extends_refl w : extends w w.
Proof. by intros k. Qed.

Lemma extends_trans w1 w2 w3 : extends w1 w2 -> extends w2 w3 -> extends w1 w3.
Proof. intros H1 H2 k. by rewrite H2, H1. Qed.

Lemma eval_get_config_same_store kind w w' :
  cache w' !! kind = cache w !! kind -> installed w' = installed w ->
  eval (get_config kind) w' = eval (get_config kind) w.
Proof.
  intros Hc Hi. unfold eval, get_config, lru_cache, get_config_body.
  rewrite Hc, Hi. destruct (cache w !! kind); [done|].
  by destruct (CONFIG !! kind).
Qed.

Lemma get_config_extends kind w s w' :
  get_config kind w = Ok (s, w') -> extends w w'.
Proof.
  intros H. destruct (get_config_inv _ _ _ _ H)
    as [[_ ->] | (Hc & Hi & Hc' & _)]; [apply extends_refl|].
  intros k. destruct (decide (k = kind)) as [->|Hne].
  - rewrite (eval_ok _ _ _ _ H).
    apply eval_ok with (w' := w'). apply get_config_hit.
    rewrite Hc'. apply lookup_insert_eq.
  - apply eval_get_config_same_store; [|done].
    rewrite Hc'. by apply lookup_insert_ne.
Qed.

(** The memoized value: after a call, the same argument gives the same set
    and leaves the state alone, whatever is installed by then. *)
Lemma get_config_again kind w s w' exts :
  get_config kind w = Ok (s, w') ->
  get_config kind {| cache := cache w'; installed := exts |}
  = Ok (s, {| cache := cache w'; installed := exts |}).
Proof.
  intros H. apply get_config_hit. simpl.
  destruct (get_config_inv _ _ _ _ H) as [[Hc ->] | (_ & _ & -> & _)];
    [done | apply lookup_insert_eq].
Qed.

Lemma get_config_cache_ok kind w s w' :
  cache_ok w -> get_config kind w = Ok (s, w') -> cache_ok w'.
Proof.
  intros Hok H. destruct (get_config_inv _ _ _ _ H)
    as [[_ ->] | (Hc & Hi & Hc' & base & Hk & _)]; [done|].
  intros k. rewrite Hc'. destruct (decide (k = kind)) as [->|Hne].
  - intros _. eauto.
  - rewrite lookup_insert_ne by done. apply Hok.
Qed.

(** ** Computations that only consult get_config *)

Lemma stable_ret {A} (a : A) : stable (ret a).
Proof.
  intros w. split.
  - intros a' w' H. inversion H; subst. apply extends_refl.
  - done.
Qed.

Lemma stable_lift {A} (r : result A) : stable (lift r).
Proof.
  intros w. split.
  - intros a' w' H. unfold lift in H. destruct r; inversion H; subst.
    apply extends_refl.
  - intros w2 _. unfold eval, lift. by destruct r.
Qed.

Lemma stable_get_config kind : stable (get_config kind).
Proof.
  intros w. split.
  - intros s w'. apply get_config_extends.
  - intros w2 H. apply H.
Qed.

Lemma stable_bind {A B} (m : M A) (k : A -> M B) :
  stable m -> (forall a, stable (k a)) -> stable (bind m k).
Proof.
  intros Hm Hk w. split.
  - intros b w' H. apply bind_ok in H as (a & w1 & H1 & H2).
    eapply extends_trans; [by eapply Hm | by eapply Hk].
  - intros w2 Hext.
    destruct (Hm w) as [Hm1 Hm2]. specialize (Hm2 w2 Hext).
    unfold eval, bind in *.
    destruct (m w) as [[a w1]|e] eqn:E1, (m w2) as [[a2 w2']|e2] eqn:E2;
      try discriminate; [|by inversion Hm2].
    inversion Hm2; subst a2.
    destruct (Hk a w) as [_ Hk2].
    pose proof (Hk2 w1 (Hm1 _ _ eq_refl)) as K1.
    assert (extends w w2') as Hx.
    { eapply extends_trans; [exact Hext|]. by eapply (Hm w2). }
    pose proof (Hk2 w2' Hx) as K2.
    unfold eval in K1, K2. by rewrite K1, K2.
Qed.

Lemma stable_if {A} (b : bool) (m1 m2 : M A) :
  stable m1 -> stable m2 -> stable (if b then m1 else m2).
Proof. by destruct b. Qed.

Lemma stable_step {A} (m : M A) w a w' :
  stable m -> m w = Ok (a, w') -> extends w w'.
Proof. intros H. apply H. Qed.

Lemma stable_eval {A} (m : M A) w w2 :
  stable m -> extends w w2 -> eval m w2 = eval m w.
Proof. intros H. apply H. Qed.

Ltac stable_steps :=
  repeat first
    [ apply stable_ret | apply stable_lift | apply stable_get_config
    | apply stable_if | apply stable_bind; [|intros ?] ].

Lemma stable_example_no_value parser action opts :
  stable (example_no_value parser action opts).
Proof. unfold example_no_value. stable_steps. Qed.

Lemma stable_example_with_value parser action opts :
  stable (example_with_value parser action opts).
Proof. unfold example_with_value. stable_steps. Qed.

Lemma stable_example parser action opts : stable (example parser action opts).
Proof.
  unfold example. destruct (nargs_is_zero (nargs action));
    [apply stable_example_no_value | apply stable_example_with_value].
Qed.

Lemma stable_example_with_help parser action opts :
  stable (example_with_help parser action opts).
Proof.
  unfold example_with_help. apply stable_bind; [apply stable_example|].
  intros ?. apply stable_ret.
Qed.

Lemma stable_all_examples_parts parser actions opts :
  stable (all_examples_parts parser actions opts).
Proof.
  induction actions as [|a rest IH]; simpl; [apply stable_ret|].
  stable_steps; apply IH.
Qed.

Lemma stable_all_examples parser actions opts :
  stable (all_examples parser actions opts).
Proof.
  unfold all_examples. apply stable_bind; [apply stable_all_examples_parts|].
  intros ?. apply stable_ret.
Qed.

(** ** The suppression sets *)

Lemma default_declaration_lookup kind :
  default [] (({[ u "ignore" := []; u "comment" := [] ]} : gmap (list N) (list (list N))) !! kind) = [].
Proof.
  destruct (decide (kind = u "ignore")) as [->|N1]; [done|].
  rewrite lookup_insert_ne by done.
  destruct (decide (kind = u "comment")) as [->|N2]; [done|].
  by rewrite lookup_singleton_ne.
Qed.

Lemma _reducer_contribution (kind : list N) (acc : gset (list N)) (ext : pyobj) :
  _reducer kind acc ext = acc ∪ contribution kind ext.
Proof.
  unfold _reducer, contribution. destruct (obj_on_edit ext) as [d|]; simpl; [done|].
  by rewrite default_declaration_lookup.
Qed.

Lemma reduce_reducer_union (kind : list N) (exts : list pyobj) (acc : gset (list N)) :
  reduce (_reducer kind) exts acc = acc ∪ ⋃ (map (contribution kind) exts).
Proof.
  unfold reduce. revert acc.
  induction exts as [|ext exts IH]; intros acc; simpl.
  - by rewrite union_empty_r_L.
  - rewrite IH, _reducer_contribution. by rewrite union_assoc_L.
Qed.

Lemma elem_of_contribution (kind : list N) (ext : pyobj) (x : list N) :
  x ∈ contribution kind ext <->
  exists declared l, obj_on_edit ext = Some declared /\
                     declared !! kind = Some l /\ x ∈ l.
Proof.
  unfold contribution. destruct (obj_on_edit ext) as [d|].
  - destruct (d !! kind) as [l|] eqn:E; simpl.
    + rewrite elem_of_list_to_set. split.
      * intros Hx. exists d, l. done.
      * intros (d' & l' & Hd & Hl & Hx). by simplify_eq.
    + split; [set_solver|]. intros (d' & l' & Hd & Hl & Hx). by simplify_eq.
  - split; [set_solver|]. intros (d' & l' & Hd & _). done.
Qed.

(** What [get_config] computes from the objects that
    [iterate_entry_points()] yields: on its first call for a kind of
    [CONFIG], the static base set of that kind together with what each of
    these objects declares for it under [on_edit]; an object without
    [on_edit], or whose declaration lacks the kind, adds nothing and raises
    nothing.  The result is memoized: a later call with the same kind
    returns the same set and leaves the state as it is, whatever
    [iterate_entry_points()] would yield by then. *)
Lemma get_config_unites_declarations (kind : list N) (w : world) :
  kind = u "ignore" \/ kind = u "comment" ->
  cache w !! kind = None ->
  exists base s w',
    CONFIG !! kind = Some base /\
    get_config kind w = Ok (s, w') /\
    s = list_to_set base ∪ ⋃ (map (contribution kind) (installed w)) /\
    (forall x, x ∈ s <->
       x ∈ base \/
       exists ext declared l,
         ext ∈ installed w /\ obj_on_edit ext = Some declared /\
         declared !! kind = Some l /\ x ∈ l) /\
    (forall exts,
       get_config kind {| cache := cache w'; installed := exts |}
       = Ok (s, {| cache := cache w'; installed := exts |})).
Proof.
  intros Hkind Hc.
  destruct (proj2 (CONFIG_keys kind) Hkind) as [base Hbase].
  pose proof (get_config_miss _ _ _ Hc Hbase) as Hg.
  rewrite reduce_reducer_union in Hg.
  eexists base, _, _. split; [done|]. split; [exact Hg|]. split; [done|]. split.
  - intros x. rewrite elem_of_union, elem_of_list_to_set, elem_of_union_list.
    split.
    + intros [Hx | (X & HX & Hx)]; [by left|]. right.
      apply list_elem_of_fmap in HX as (ext & -> & Hext).
      apply elem_of_contribution in Hx as (d & l & Hd & Hl & Hx).
      exists ext, d, l. done.
    + intros [Hx | (ext & d & l & Hext & Hd & Hl & Hx)]; [by left|]. right.
      exists (contribution kind ext). split.
      * apply list_elem_of_fmap. eauto.
      * apply elem_of_contribution. eauto.
  - intros exts. by apply (get_config_again _ _ _ _ exts) in Hg.
Qed.

Lemma union_no_contribution (kind : list N) (exts : list pyobj) :
  Forall (fun o => obj_on_edit o = None) exts ->
  ⋃ (map (contribution kind) exts) = (∅ : gset (list N)).
Proof.
  induction 1 as [|o l Ho _ IH]; [done|].
  simpl. rewrite IH. unfold contribution. rewrite Ho.
  by rewrite (left_id_L ∅ (∪)).
Qed.

(** C7, where it fails: [get_config] asks the objects of
    [iterate_entry_points()] for [on_edit], and these are the entry points
    that name the extension classes, not the extensions: none has the
    attribute.  Whatever is installed, [get_config] returns the static base
    set alone, on the first call and, memoized, on every later one.  The set
    of ["ignore"] lacks the [--edit] that the class [Edit] of this module
    declares, against the documentation of [CONFIG] ("will be augmented by
    each extension via the [on_edit] attribute"). *)
Theorem get_config_entry_points_declare_nothing (kind : list N) (w : world) :
  kind = u "ignore" \/ kind = u "comment" ->
  cache w !! kind = None ->
  Forall (fun o => obj_on_edit o = None) (installed w) ->
  exists base w',
    CONFIG !! kind = Some base /\
    get_config kind w = Ok (list_to_set base, w') /\
    (forall exts,
       get_config kind {| cache := cache w'; installed := exts |}
       = Ok (list_to_set base, {| cache := cache w'; installed := exts |})) /\
    (kind = u "ignore" ->
     u "--edit" ∈ contribution kind Edit /\
     u "--edit" ∉ (list_to_set base : gset (list N))).
Proof.
  intros Hkind Hc Hno.
  destruct (proj2 (CONFIG_keys kind) Hkind) as [base Hbase].
  pose proof (get_config_miss _ _ _ Hc Hbase) as Hg.
  rewrite reduce_reducer_union, (union_no_contribution _ _ Hno) in Hg.
  rewrite (right_id_L ∅ (∪)) in Hg.
  eexists base, _. split; [done|]. split; [exact Hg|]. split.
  - intros exts. by apply (get_config_again _ _ _ _ exts) in Hg.
  - intros ->. rewrite CONFIG_ignore in Hbase. inversion Hbase; subst base.
    split; [elem_by_compute | not_elem_by_compute].
Qed.

(** C9: in a state whose cache holds only keys of [CONFIG], a kind other
    than ["ignore"] and ["comment"] fails the assertion, and either of the
    two returns a set (and keeps the cache that way). *)
Theorem get_config_kind_assertion (kind : list N) (w : world) :
  cache_ok w ->
  (kind <> u "ignore" -> kind <> u "comment" ->
   get_config kind w = Raise AssertionError) /\
  (kind = u "ignore" \/ kind = u "comment" ->
   exists s w', get_config kind w = Ok (s, w') /\ cache_ok w').
Proof.
  intros Hok. split.
  - intros N1 N2.
    assert (CONFIG !! kind = None) as Hk.
    { destruct (CONFIG !! kind) eqn:E; [|done].
      destruct (proj1 (CONFIG_keys kind)) as [|]; [eauto|done|done]. }
    apply get_config_invalid; [|done].
    destruct (cache w !! kind) eqn:E; [|done].
    destruct (Hok kind) as [? ?]; [eauto|congruence].
  - intros Hkind. apply CONFIG_keys in Hkind.
    destruct (get_config_total kind w Hkind) as (s & w' & H).
    exists s, w'. split; [done|]. by eapply get_config_cache_ok.
Qed.

Lemma cache_ok_fresh exts : cache_ok (fresh_world exts).
Proof. intros k [s Hs]. simpl in Hs. by rewrite lookup_empty in Hs. Qed.

(** With such a cache the limit [maxsize=2] is never exceeded. *)
Lemma cache_ok_size (w : world) : cache_ok w -> (size (cache w) <= 2)%nat.
Proof.
  intros Hok. rewrite <- size_dom.
  assert (dom (cache w) ⊆ ({[ u "ignore"; u "comment" ]} : gset (list N))) as Hsub.
  { intros k Hk. apply elem_of_dom in Hk. apply Hok, CONFIG_keys in Hk.
    set_solver. }
  apply subseteq_size in Hsub. etransitivity; [exact Hsub|].
  rewrite size_union by (apply disjoint_singleton_l; by not_elem_by_compute).
  by rewrite !size_singleton.
Qed.

(** ** example_no_value *)

Lemma lift_long_option action w :
  lift (long_option action) w = Ok (canonical action, w).
Proof. unfold lift. by rewrite long_option_ok. Qed.

Lemma example_no_value_unfold (parser : ArgumentParser) (action : Action)
    (opts : gmap (list N) pyval) (w : world) (config : gset (list N))
    (w' : world) :
  get_config (u "comment") w = Ok (config, w') ->
  example_no_value parser action opts w =
    (if negb (bool_decide (canonical action ∈ config))
        && (negb (bool_decide (dest action = u "extensions"))
            && truthy (opts_get opts (dest action)))
     then ret (u " " ++ canonical action)
     else
       do active <- lift (has_active_extension action opts) ;
       if active then ret (u " " ++ canonical action)
       else ret (comment (canonical action) (u "#") 0)) w'.
Proof.
  intros Hg. unfold example_no_value, bind at 1.
  rewrite lift_long_option. unfold bind at 1. by rewrite Hg.
Qed.

(** C2, amended: a zero-arity action whose destination is not
    ["extensions"], holds a truthy value, and whose canonical spelling is
    not in the commented set, is rendered active: a space and the canonical
    spelling. *)
Theorem example_no_value_active (parser : ArgumentParser) (action : Action)
    (opts : gmap (list N) pyval) (w : world) (config : gset (list N))
    (w' : world) :
  get_config (u "comment") w = Ok (config, w') ->
  canonical action ∉ config ->
  dest action <> u "extensions" ->
  truthy (opts_get opts (dest action)) = true ->
  example_no_value parser action opts w = Ok (u " " ++ canonical action, w').
Proof.
  intros Hg Hnc Hd Ht. rewrite (example_no_value_unfold _ _ _ _ _ _ Hg).
  rewrite Ht. rewrite bool_decide_eq_false_2 by done.
  rewrite bool_decide_eq_false_2 by done. reflexivity.
Qed.

(** A spelling of the commented set is rendered as a comment when no active
    extension carries one of the action's flags. *)
Lemma example_no_value_commented (parser : ArgumentParser) (action : Action)
    (opts : gmap (list N) pyval) (w : world) (config : gset (list N))
    (w' : world) :
  get_config (u "comment") w = Ok (config, w') ->
  canonical action ∈ config ->
  has_active_extension action opts = Ok false ->
  example_no_value parser action opts w
  = Ok (comment (canonical action) (u "#") 0, w').
Proof.
  intros Hg Hc Ha. rewrite (example_no_value_unfold _ _ _ _ _ _ Hg).
  rewrite bool_decide_eq_true_2 by done. simpl.
  unfold bind, lift. by rewrite Ha.
Qed.


(** ** Lines and their tokens *)

Lemma line_tokens_nil : line_tokens [] = Ok [].
Proof. reflexivity. Qed.

Lemma split_args_lines (text : list N) :
  split_args text = lines_tokens (splitlines false text).
Proof.
  unfold split_args. generalize (splitlines false text) as ls.
  induction ls as [|l ls IH]; [reflexivity|].
  simpl map. rewrite filter_cons. simpl lines_tokens. rewrite <- IH.
  unfold line_tokens. destruct (decide (kept_line (strip l) = true)) as [Hk|Hk].
  - rewrite Hk. simpl. destruct (shlex_split (strip l)) as [ts|e]; simpl; [|done].
    destruct (rmap shlex_split _) as [tss|e]; simpl; done.
  - apply not_true_is_false in Hk. rewrite Hk. by rewrite rapp_nil_l.
Qed.

Lemma split_args_scan (text : list N) : split_args text = scan_tokens [] text.
Proof.
  rewrite split_args_lines. unfold scan_tokens, splitlines.
  f_equal.
Qed.

Lemma scan_tokens_nil cur :
  scan_tokens cur [] = line_tokens (rev cur) \/ (cur = [] /\ scan_tokens cur [] = Ok []).
Proof.
  unfold scan_tokens. destruct cur as [|c cur]; [by right|left].
  simpl. by rewrite rapp_nil_r.
Qed.

Lemma scan_tokens_nil_eq cur : scan_tokens cur [] = line_tokens (rev cur).
Proof.
  destruct (scan_tokens_nil cur) as [H | [-> H]]; [done|].
  by rewrite H.
Qed.

Lemma scan_tokens_LF s : scan_tokens [] (LF :: s) = scan_tokens [] s.
Proof.
  unfold scan_tokens. cbn [scan_lines]. change (islinebreak LF) with true.
  cbv iota. destruct s as [|d s].
  - reflexivity.
  - change ((LF =? CR) && (d =? LF)) with false. cbv iota.
    cbn [map fst lines_tokens foldr rev]. by rewrite line_tokens_nil, rapp_nil_l.
Qed.

Lemma scan_tokens_nonbreak cur c s :
  islinebreak c = false -> scan_tokens cur (c :: s) = scan_tokens (c :: cur) s.
Proof. intros H. unfold scan_tokens. simpl. by rewrite H. Qed.

Lemma scan_tokens_break cur c s :
  islinebreak c = true ->
  scan_tokens cur (c :: s) = rapp (line_tokens (rev cur)) (scan_tokens [] s).
Proof.
  intros H. unfold scan_tokens at 1. simpl. rewrite H.
  destruct s as [|d s].
  - simpl. reflexivity.
  - destruct ((c =? CR) && (d =? LF)) eqn:E.
    + apply andb_true_iff in E as [_ Ed]. apply N.eqb_eq in Ed. subst d.
      simpl. by rewrite scan_tokens_LF.
    + reflexivity.
Qed.

Lemma scan_tokens_break_CRLF cur s :
  scan_tokens cur (CR :: LF :: s) = rapp (line_tokens (rev cur)) (scan_tokens [] s).
Proof. rewrite scan_tokens_break by done. by rewrite scan_tokens_LF. Qed.

(** A line break between [a] and [b] separates their lines: the tokens are
    those of [a] followed by those of [b]. *)
Lemma scan_tokens_app_break (a : list N) :
  forall cur c b, islinebreak c = true ->
    scan_tokens cur (a ++ c :: b) = rapp (scan_tokens cur a) (scan_tokens [] b).
Proof.
  induction a as [|x a IH]; intros cur c b Hc.
  - simpl. rewrite scan_tokens_break by done. by rewrite scan_tokens_nil_eq.
  - simpl. destruct (islinebreak x) eqn:Hx.
    + rewrite !scan_tokens_break by done. rewrite IH by done.
      by rewrite rapp_assoc.
    + rewrite !scan_tokens_nonbreak by done. by apply IH.
Qed.

Lemma split_args_nil : split_args [] = Ok [].
Proof. reflexivity. Qed.

Lemma split_args_app_break (a b : list N) (c : N) :
  islinebreak c = true ->
  split_args (a ++ c :: b) = rapp (split_args a) (split_args b).
Proof. intros Hc. rewrite !split_args_scan. by apply scan_tokens_app_break. Qed.

(** The same for a separator made of one or more line breaks. *)
Lemma split_args_app_sep (sep : list N) :
  sep <> [] -> forallb islinebreak sep = true ->
  forall a b, split_args (a ++ sep ++ b) = rapp (split_args a) (split_args b).
Proof.
  induction sep as [|c sep IH]; [done|]. intros _ Hsep a b.
  simpl in Hsep. apply andb_true_iff in Hsep as [Hc Hsep].
  change ((c :: sep) ++ b) with (c :: (sep ++ b)).
  rewrite split_args_app_break by done. f_equal.
  destruct sep as [|d sep']; [done|].
  change (split_args ([] ++ (d :: sep') ++ b) = split_args b).
  rewrite (IH ltac:(done) Hsep [] b).
  by rewrite split_args_nil, rapp_nil_l.
Qed.

Lemma split_args_join (sep : list N) (parts : list (list N)) :
  sep <> [] -> forallb islinebreak sep = true ->
  split_args (join sep parts)
  = foldr (fun p acc => rapp (split_args p) acc) (Ok []) parts.
Proof.
  intros Hne Hsep. induction parts as [|p ps IH]; [reflexivity|].
  destruct ps as [|q ps].
  - simpl. by rewrite rapp_nil_r.
  - change (join sep (p :: q :: ps)) with (p ++ sep ++ join sep (q :: ps)).
    rewrite split_args_app_sep by done. by rewrite IH.
Qed.

Lemma split_args_join_block (sep : list N) (parts : list (list N)) :
  sep <> [] -> forallb islinebreak sep = true ->
  split_args (join_block parts sep)
  = foldr (fun p acc => rapp (split_args p) acc) (Ok []) parts.
Proof.
  intros Hne Hsep. unfold join_block. rewrite split_args_join by done.
  induction parts as [|p ps IH]; [reflexivity|].
  destruct p as [|c p].
  - rewrite filter_cons_False by done. rewrite IH.
    cbn [foldr]. by rewrite split_args_nil, rapp_nil_l.
  - rewrite filter_cons_True by done. cbn [foldr]. by rewrite <- IH.
Qed.

(** *** White space *)

Lemma islinebreak_isspace c : islinebreak c = true -> isspace c = true.
Proof.
  unfold islinebreak, isspace.
  rewrite !orb_true_iff, !andb_true_iff, !N.leb_le, !N.eqb_eq. lia.
Qed.

Lemma lstrip_nil_iff s : lstrip s = [] <-> forallb isspace s = true.
Proof.
  induction s as [|c s IH]; simpl; [done|].
  destruct (isspace c); simpl; [done|]. split; done.
Qed.

Lemma lstrip_cons_nonspace s c r : lstrip s = c :: r -> isspace c = false.
Proof.
  induction s as [|x s IH]; simpl; [done|].
  destruct (isspace x) eqn:E; [done|]. intros H. by simplify_eq.
Qed.

Lemma lstrip_snoc_nonspace s c :
  isspace c = false -> lstrip (s ++ [c]) = lstrip s ++ [c].
Proof.
  intros Hc. induction s as [|x s IH]; simpl.
  - by rewrite Hc.
  - by destruct (isspace x).
Qed.

Lemma rstrip_cons_nonspace c r :
  isspace c = false -> rstrip (c :: r) = c :: rstrip r.
Proof.
  intros Hc. unfold rstrip. simpl rev at 2.
  rewrite lstrip_snoc_nonspace by done. by rewrite rev_app_distr.
Qed.

Lemma strip_nil_iff s : strip s = [] <-> forallb isspace s = true.
Proof.
  unfold strip. rewrite <- lstrip_nil_iff.
  destruct (lstrip s) as [|c r] eqn:E; [done|].
  rewrite rstrip_cons_nonspace by (by eapply lstrip_cons_nonspace). done.
Qed.

Lemma strip_head s c r :
  lstrip s = c :: r -> head (strip s) = Some c.
Proof.
  intros E. unfold strip. rewrite E.
  rewrite rstrip_cons_nonspace by (by eapply lstrip_cons_nonspace). done.
Qed.

Lemma lstrip_spaces n s : lstrip (repeat SPACE n ++ s) = lstrip s.
Proof. induction n as [|n IH]; [done|]. simpl. exact IH. Qed.

Lemma line_tokens_blank s : forallb isspace s = true -> line_tokens s = Ok [].
Proof.
  intros H. apply strip_nil_iff in H. unfold line_tokens. by rewrite H.
Qed.

Lemma line_tokens_hash n r : line_tokens (repeat SPACE n ++ HASH :: r) = Ok [].
Proof.
  unfold line_tokens.
  assert (head (strip (repeat SPACE n ++ HASH :: r)) = Some HASH) as Hh.
  { apply strip_head with (r := r). by rewrite lstrip_spaces. }
  destruct (strip _) as [|c t]; [done|]. simpl in Hh. by simplify_eq.
Qed.

Lemma line_tokens_inert s : inert_line s -> line_tokens s = Ok [].
Proof.
  unfold inert_line, line_tokens. intros [-> | H]; [done|].
  destruct (strip s) as [|c t]; [done|]. simpl in H. by simplify_eq.
Qed.

(** A text without line breaks is one line. *)
Lemma scan_tokens_one_line s :
  forall cur, Forall (fun c => islinebreak c = false) s ->
    scan_tokens cur s = line_tokens (rev cur ++ s).
Proof.
  induction s as [|c s IH]; intros cur Hs.
  - rewrite scan_tokens_nil_eq. by rewrite app_nil_r.
  - inversion Hs as [|? ? Hc Hs']; subst.
    rewrite scan_tokens_nonbreak by done. rewrite IH by done.
    simpl. by rewrite <- app_assoc.
Qed.

Lemma split_args_one_line s :
  Forall (fun c => islinebreak c = false) s -> split_args s = line_tokens s.
Proof. intros H. rewrite split_args_scan. by rewrite scan_tokens_one_line. Qed.

Lemma scan_lines_break cur c s :
  islinebreak c = true ->
  exists t s', is_terminator t /\ (length s' <= length s)%nat /\
               scan_lines cur (c :: s) = (rev cur, t) :: scan_lines [] s'.
Proof.
  intros Hc. cbn [scan_lines]. rewrite Hc. destruct s as [|d s].
  - exists [c], []. split; [left; eauto | done].
  - destruct ((c =? CR) && (d =? LF)) eqn:E.
    + apply andb_true_iff in E as [E1 E2]. apply N.eqb_eq in E1, E2. subst.
      exists [CR; LF], s. split; [by right|]. split; [simpl; lia | done].
    + exists [c], (d :: s). split; [left; eauto | done].
Qed.

Lemma scan_lines_wf_bounded (n : nat) :
  forall s cur, (length s <= n)%nat ->
    Forall (fun c => islinebreak c = false) cur ->
    lines_wf (scan_lines cur s).
Proof.
  induction n as [|n IH]; intros s cur Hlen Hcur.
  - destruct s; [|simpl in Hlen; lia].
    destruct cur; simpl; [done|]. split; [|by split; [left|]].
    apply Forall_rev in Hcur. exact Hcur.
  - destruct s as [|c s]; [apply (IH []); [simpl; lia | done]|].
    simpl in Hlen. destruct (islinebreak c) eqn:Hc.
    + destruct (scan_lines_break cur c s Hc) as (t & s' & Ht & Hl & ->).
      cbn [lines_wf]. split; [by apply Forall_rev|]. split; [by right|].
      apply IH; [lia | done].
    + cbn [scan_lines]. rewrite Hc. apply IH; [lia|]. by constructor.
Qed.

Lemma scan_lines_wf s : lines_wf (scan_lines [] s).
Proof. by apply (scan_lines_wf_bounded (length s)). Qed.

(** *** textwrap.indent with a comment prefix *)

Lemma split_args_prefixed_body n p b :
  Forall (fun c => islinebreak c = false) p ->
  Forall (fun c => islinebreak c = false) b ->
  split_args ((repeat SPACE n ++ HASH :: p) ++ b) = Ok [].
Proof.
  intros Hp Hb. rewrite split_args_one_line.
  - rewrite <- app_assoc. simpl. apply line_tokens_hash.
  - rewrite !Forall_app. split; [split|done].
    + apply Forall_forall. intros x Hx%list_elem_of_In%repeat_spec. by subst.
    + by constructor.
Qed.

Lemma split_args_blank_body b t :
  Forall (fun c => islinebreak c = false) b ->
  nonempty (strip (b ++ t)) = false ->
  split_args b = Ok [].
Proof.
  intros Hb Hs. rewrite split_args_one_line by done.
  apply line_tokens_blank.
  assert (strip (b ++ t) = []) as E by (by destruct (strip _)).
  apply strip_nil_iff in E. rewrite forallb_app in E.
  by apply andb_true_iff in E as [E _].
Qed.

Lemma split_args_indented_lines n p (ls : list (list N * list N)) :
  Forall (fun c => islinebreak c = false) p ->
  lines_wf ls ->
  split_args
    (concat (map (fun line => if nonempty (strip line)
                              then (repeat SPACE n ++ HASH :: p) ++ line
                              else line)
                 (map (fun l => fst l ++ snd l) ls)))
  = Ok [].
Proof.
  intros Hp. induction ls as [|[b t] ls IH]; [done|].
  intros (Hb & Ht & Hls). specialize (IH Hls).
  cbn [map concat fst snd].
  set (body := if nonempty (strip (b ++ t))
               then (repeat SPACE n ++ HASH :: p) ++ b else b).
  assert (split_args body = Ok []) as Hbody.
  { unfold body. destruct (nonempty (strip (b ++ t))) eqn:E.
    - by apply split_args_prefixed_body.
    - by eapply split_args_blank_body. }
  assert ((if nonempty (strip (b ++ t))
           then (repeat SPACE n ++ HASH :: p) ++ b ++ t else b ++ t)
          = body ++ t) as ->.
  { unfold body. destruct (nonempty _); [by rewrite !app_assoc | done]. }
  destruct Ht as [[-> ->] | [(c & Hc & ->) | ->]].
  - simpl. by rewrite !app_nil_r.
  - rewrite <- app_assoc. simpl.
    rewrite split_args_app_break by done. by rewrite Hbody, IH.
  - rewrite <- app_assoc. simpl.
    rewrite split_args_app_break by done.
    match goal with |- context [split_args (LF :: ?r)] =>
      change (LF :: r) with ([] ++ LF :: r) end.
    rewrite (split_args_app_break [] _ LF) by done.
    by rewrite Hbody, IH.
Qed.

(** A commented text yields no token, whatever the text. *)
Lemma split_args_comment (text : list N) (indent_level : nat) :
  split_args (comment text (u "#") indent_level) = Ok [].
Proof.
  unfold comment, textwrap_indent, splitlines.
  change (repeat SPACE indent_level ++ u "#" ++ u " ")
    with (repeat SPACE indent_level ++ HASH :: [SPACE]).
  apply split_args_indented_lines; [by repeat constructor|].
  apply scan_lines_wf.
Qed.

(** ** Documents *)

Lemma sep3_ok :
  linesep_ok ->
  linesep ++ linesep ++ linesep <> [] /\
  forallb islinebreak (linesep ++ linesep ++ linesep) = true.
Proof.
  intros [Hne Hb]. split.
  - destruct linesep; [done | discriminate].
  - by rewrite !forallb_app, Hb.
Qed.

Lemma example_with_help_eq parser action opts w :
  example_with_help parser action opts w =
    match example parser action opts w with
    | Ok (ex, w') => Ok (with_help action ex, w')
    | Raise e => Raise e
    end.
Proof.
  unfold example_with_help, bind, ret.
  by destruct (example parser action opts w) as [[ex w']|e].
Qed.

Lemma all_examples_parts_eq parser actions opts :
  forall w,
    all_examples_parts parser actions opts w =
      match example_lines parser actions opts w with
      | Ok (ls, w') => Ok (map (fun al => with_help (fst al) (snd al)) ls, w')
      | Raise e => Raise e
      end.
Proof.
  induction actions as [|a rest IH]; intros w; [reflexivity|].
  cbn [all_examples_parts example_lines]. unfold bind at 1 5.
  rewrite lift_long_option. unfold bind at 1 4.
  destruct (get_config (u "ignore") w) as [[ignored w1]|e]; [|done].
  destruct (bool_decide (canonical a ∈ ignored)); [apply IH|].
  unfold bind. rewrite example_with_help_eq.
  destruct (example parser a opts w1) as [[ex w2]|e]; [|done].
  rewrite IH.
  by destruct (example_lines parser rest opts w2) as [[ls w3]|e].
Qed.

Lemma all_examples_eq parser actions opts w :
  all_examples parser actions opts w =
    match example_lines parser actions opts w with
    | Ok (ls, w') =>
        Ok (join_block (map (fun al => with_help (fst al) (snd al)) ls)
                       (linesep ++ linesep ++ linesep), w')
    | Raise e => Raise e
    end.
Proof.
  unfold all_examples, bind, ret. rewrite all_examples_parts_eq.
  by destruct (example_lines parser actions opts w) as [[ls w']|e].
Qed.

(** The help block adds no token to the example line. *)
Lemma split_args_with_help action ex :
  linesep_ok -> split_args (with_help action ex) = split_args ex.
Proof.
  intros [Hne Hb]. unfold with_help.
  rewrite split_args_join_block by done. cbn [foldr].
  rewrite !split_args_comment. by rewrite !rapp_nil_r.
Qed.

(** The tokens of a document are those of its example lines, in order. *)
Lemma split_args_document (ls : list (Action * list N)) :
  linesep_ok ->
  split_args (join_block (map (fun al => with_help (fst al) (snd al)) ls)
                         (linesep ++ linesep ++ linesep))
  = foldr (fun al acc => rapp (split_args (snd al)) acc) (Ok []) ls.
Proof.
  intros Hok. destruct (sep3_ok Hok) as [Hne Hb].
  rewrite split_args_join_block by done.
  induction ls as [|[a l] ls IH]; [reflexivity|].
  cbn [map foldr fst snd]. rewrite IH. by rewrite split_args_with_help.
Qed.

Lemma commented_or_blank_inert line : commented_or_blank line -> inert_line line.
Proof.
  unfold commented_or_blank, inert_line. intros H.
  destruct (strip line) as [|c r] eqn:E; [by left|right].
  specialize (H ltac:(done)).
  destruct (lstrip line) as [|d t] eqn:El; [done|].
  simpl in H. simplify_eq.
  pose proof (strip_head _ _ _ El) as Hh. by rewrite E in Hh.
Qed.

Lemma commented_or_blankb_spec line :
  commented_or_blankb line = true -> commented_or_blank line.
Proof.
  unfold commented_or_blankb, commented_or_blank. intros H Hs.
  destruct (lstrip line) as [|c r] eqn:E.
  - apply lstrip_nil_iff, strip_nil_iff in E. done.
  - apply N.eqb_eq in H. by subst.
Qed.

Lemma lines_tokens_inert (ls : list (list N)) :
  (forall line, line ∈ ls -> inert_line line) -> lines_tokens ls = Ok [].
Proof.
  induction ls as [|l ls IH]; intros H; [reflexivity|].
  cbn [lines_tokens foldr]. fold (lines_tokens ls).
  rewrite IH by (intros; apply H; by right).
  rewrite line_tokens_inert by (apply H; by left). done.
Qed.

(** When every example line is rendered by [comment], the whole document is
    made of comments and blank lines: [split_args] returns no argument,
    whatever the help texts are. *)
Lemma split_args_all_commented (parser : ArgumentParser)
    (actions : list Action) (opts : gmap (list N) pyval) (w w' w'' : world)
    (doc : list N) (ls : list (Action * list N)) :
  linesep_ok ->
  all_examples parser actions opts w = Ok (doc, w') ->
  example_lines parser actions opts w = Ok (ls, w'') ->
  Forall (fun al => exists text, snd al = comment text (u "#") 0) ls ->
  split_args doc = Ok [].
Proof.
  intros Hok Hdoc Hls Hall. rewrite all_examples_eq, Hls in Hdoc.
  inversion Hdoc; subst. rewrite split_args_document by done.
  clear Hdoc Hls. induction Hall as [|[a l] ls [text Ht] _ IH]; [done|].
  cbn [foldr snd]. simpl in Ht. subst l.
  by rewrite split_args_comment, IH.
Qed.

(** C5: for a document that [all_examples] produces, [split_args] returns
    the empty argument list when every line of the document is blank or
    begins, after its leading white space, with ['#']; and, [os.linesep]
    being made of line breaks, also when every example line of the document
    was rendered by [comment]. *)
Theorem split_args_commented_document (parser : ArgumentParser)
    (actions : list Action) (opts : gmap (list N) pyval) (w w' : world)
    (doc : list N) :
  all_examples parser actions opts w = Ok (doc, w') ->
  ((forall line, line ∈ splitlines false doc -> commented_or_blank line) ->
   split_args doc = Ok []) /\
  (linesep_ok ->
   forall ls w'',
     example_lines parser actions opts w = Ok (ls, w'') ->
     Forall (fun al => exists text, snd al = comment text (u "#") 0) ls ->
     split_args doc = Ok []).
Proof.
  intros Hdoc. split.
  - intros H. rewrite split_args_lines. apply lines_tokens_inert.
    intros line Hl. by apply commented_or_blank_inert, H.
  - intros Hok ls w'' Hls Hall. by eapply split_args_all_commented.
Qed.

(** ** The blocks of a document *)

Lemma filter_nonempty_all (blocks : list (list N)) :
  Forall (fun b => b <> []) blocks ->
  filter (fun p => nonempty p = true) blocks = blocks.
Proof.
  induction 1 as [|b bs Hb _ IH]; [done|].
  rewrite filter_cons_True by (by destruct b). by rewrite IH.
Qed.

Lemma all_examples_parts_blocks (parser : ArgumentParser)
    (opts : gmap (list N) pyval) (w w1 : world) (ignored : gset (list N))
    (actions : list Action) :
  get_config (u "ignore") w = Ok (ignored, w1) ->
  forall (blocks : list (list N)) (w0 : world),
    extends w w0 ->
    Forall2 (fun a b => eval (example_with_help parser a opts) w = Ok b)
            (filter (fun a => canonical a ∉ ignored) actions) blocks ->
    eval (all_examples_parts parser actions opts) w0 = Ok blocks.
Proof.
  intros Hg. induction actions as [|a rest IH]; intros blocks w0 Hext HF.
  - inversion HF. reflexivity.
  - cbn [all_examples_parts]. unfold eval, bind at 1.
    rewrite lift_long_option. unfold bind at 1.
    pose proof (Hext (u "ignore")) as Hi.
    rewrite (eval_ok _ _ _ _ Hg) in Hi.
    apply eval_ok_inv in Hi as [w0' Hi]. rewrite Hi.
    assert (extends w w0') as Hext'.
    { eapply extends_trans; [done | by eapply get_config_extends]. }
    destruct (decide (canonical a ∈ ignored)) as [Hin|Hnin].
    + rewrite bool_decide_eq_true_2 by done.
      rewrite filter_cons_False in HF by (intros ?; done).
      by apply IH.
    + rewrite bool_decide_eq_false_2 by done.
      rewrite filter_cons_True in HF by done.
      inversion HF as [|? b ? blocks' Hb HF']; subst.
      rewrite <- (stable_eval _ _ w0' (stable_example_with_help _ _ _) Hext') in Hb.
      apply eval_ok_inv in Hb as [w2 Hb].
      unfold bind. rewrite Hb.
      assert (extends w w2) as Hext2.
      { eapply extends_trans; [exact Hext'|].
        eapply stable_step; [apply stable_example_with_help | done]. }
      specialize (IH blocks' w2 Hext2 HF'). unfold eval in IH.
      by destruct (all_examples_parts parser rest opts w2) as [[ps w3]|e];
        inversion IH.
Qed.

(** C6, amended: [all_examples] leaves out the actions whose canonical
    spelling is in the ignored set, renders a block for each of the others,
    and, when none of these blocks is the empty string, returns the blocks
    in order, joined by three line separators. *)
Theorem all_examples_blocks (parser : ArgumentParser) (actions : list Action)
    (opts : gmap (list N) pyval) (w w1 : world) (ignored : gset (list N))
    (blocks : list (list N)) :
  get_config (u "ignore") w = Ok (ignored, w1) ->
  Forall2 (fun a b => eval (example_with_help parser a opts) w = Ok b)
          (filter (fun a => canonical a ∉ ignored) actions) blocks ->
  Forall (fun b => b <> []) blocks ->
  eval (all_examples parser actions opts) w
  = Ok (join (linesep ++ linesep ++ linesep) blocks).
Proof.
  intros Hg HF Hne.
  pose proof (all_examples_parts_blocks parser opts w w1 ignored actions Hg
                blocks w (extends_refl w) HF) as Hp.
  unfold all_examples, eval, bind, ret. unfold eval in Hp.
  destruct (all_examples_parts parser actions opts w) as [[ps w2]|e];
    inversion Hp; subst.
  unfold join_block. by rewrite filter_nonempty_all.
Qed.

(** An ignored action leaves no trace in the document. *)
Lemma all_examples_ignored (parser : ArgumentParser) (a : Action)
    (rest : list Action) (opts : gmap (list N) pyval) (w w1 : world)
    (ignored : gset (list N)) :
  get_config (u "ignore") w = Ok (ignored, w1) ->
  canonical a ∈ ignored ->
  all_examples parser (a :: rest) opts w = all_examples parser rest opts w1.
Proof.
  intros Hg Hin. unfold all_examples. rewrite !bind_unfold.
  cbn [all_examples_parts]. rewrite bind_unfold, lift_long_option.
  rewrite bind_unfold, Hg. by rewrite bool_decide_eq_true_2.
Qed.

(** ** split_args *)

Lemma kept_line_strip line :
  kept_line (strip line) =
    match lstrip line with
    | [] => false
    | c :: _ => negb (c =? HASH)
    end.
Proof.
  destruct (lstrip line) as [|c r] eqn:E.
  - apply lstrip_nil_iff, strip_nil_iff in E. by rewrite E.
  - pose proof (strip_head _ _ _ E) as Hh.
    destruct (strip line) as [|d t]; [done|]. simpl in Hh. by simplify_eq.
Qed.

Lemma split_args_parse_step (text : list N) : split_args text = parse_step text.
Proof.
  unfold split_args, parse_step. generalize (splitlines false text) as ls.
  induction ls as [|l ls IH]; [reflexivity|].
  cbn [map List.filter]. rewrite <- kept_line_strip.
  destruct (kept_line (strip l)) eqn:E.
  - rewrite filter_cons_True by done. cbn [rmap].
    destruct (shlex_split (strip l)) as [ts|e]; [|done]. cbn [rbind].
    destruct (rmap shlex_split _) as [tss|e] eqn:E1;
      destruct (rmap (fun line => shlex_split (strip line)) _) as [tss'|e'] eqn:E2;
      simpl in *; congruence.
  - rewrite filter_cons_False by (by rewrite E). exact IH.
Qed.


(** ** example_with_value *)

Lemma example_with_value_absent (parser : ArgumentParser) (action : Action)
    (opts : gmap (list N) pyval) (w : world) :
  opts_get opts (dest action) = VAtom ANone ->
  example_with_value parser action opts w
  = Ok (comment (strip (canonical action ++ u " "
                        ++ format_args parser action (dest action)))
                (u "#") 0, w).
Proof.
  intros Ha. unfold example_with_value. rewrite bind_unfold, lift_long_option.
  by rewrite Ha.
Qed.

Lemma example_with_value_present (parser : ArgumentParser) (action : Action)
    (opts : gmap (list N) pyval) (w w' : world) (config : gset (list N)) :
  is_none (opts_get opts (dest action)) = false ->
  get_config (u "comment") w = Ok (config, w') ->
  example_with_value parser action opts w
  = Ok (if bool_decide (canonical action ∈ config)
           || negb (nonempty (quoted_value (opts_get opts (dest action))))
        then comment (strip (canonical action ++ u " "
                             ++ format_args parser action (dest action)))
                     (u "#") 0
        else u " " ++ canonical action ++ u " "
             ++ quoted_value (opts_get opts (dest action)), w').
Proof.
  intros Hn Hg. unfold example_with_value. rewrite bind_unfold, lift_long_option.
  rewrite Hn. rewrite bind_unfold, Hg. fold (quoted_value (opts_get opts (dest action))).
  by destruct (_ || _).
Qed.

Lemma scan_lines_started (s : list N) :
  forall cur, cur <> [] ->
    exists b t rest, scan_lines cur s = (rev cur ++ b, t) :: rest.
Proof.
  induction s as [|c s IH]; intros cur Hcur.
  - destruct cur; [done|]. exists [], [], []. simpl. by rewrite app_nil_r.
  - destruct (islinebreak c) eqn:Hc.
    + destruct (scan_lines_break cur c s Hc) as (t & s' & _ & _ & ->).
      exists [], t, (scan_lines [] s'). by rewrite app_nil_r.
    + cbn [scan_lines]. rewrite Hc.
      destruct (IH (c :: cur) ltac:(done)) as (b & t & rest & ->).
      exists (c :: b), t, rest. simpl. by rewrite <- app_assoc.
Qed.

Lemma strip_cons_nonspace (text : list N) c r :
  strip text = c :: r -> isspace c = false.
Proof.
  unfold strip. intros E. destruct (lstrip text) as [|d t] eqn:El; [done|].
  rewrite rstrip_cons_nonspace in E by (by eapply lstrip_cons_nonspace).
  simplify_eq. by eapply lstrip_cons_nonspace.
Qed.

(** A commented stripped text never starts with a space. *)
Lemma comment_strip_head (text : list N) :
  head (comment (strip text) (u "#") 0) <> Some SPACE.
Proof.
  unfold comment, textwrap_indent, splitlines.
  destruct (strip text) as [|c r] eqn:E; [done|].
  pose proof (strip_cons_nonspace _ _ _ E) as Hc.
  assert (islinebreak c = false) as Hb.
  { destruct (islinebreak c) eqn:F; [|done].
    apply islinebreak_isspace in F. congruence. }
  cbn [scan_lines]. rewrite Hb.
  destruct (scan_lines_started r [c] ltac:(done)) as (b & t & rest & ->).
  cbn [map concat fst snd rev app].
  destruct (nonempty _); [done|]. simpl. intros H. simplify_eq.
Qed.

(** A commented line: one non-blank line gets the prefix ["# "]. *)
Lemma comment_one_line (text : list N) :
  strip text <> [] -> Forall (fun c => islinebreak c = false) text ->
  comment text (u "#") 0 = u "# " ++ text.
Proof.
  intros Hs Hb. unfold comment, textwrap_indent, splitlines.
  assert (forall s cur, Forall (fun c => islinebreak c = false) s ->
            cur <> [] \/ s <> [] ->
            scan_lines cur s = [(rev cur ++ s, [])]) as Hone.
  { induction s as [|c s IH]; intros cur Hf Hne.
    - destruct Hne as [Hne|]; [|done]. destruct cur; [done|].
      simpl. by rewrite app_nil_r.
    - inversion Hf; subst. cbn [scan_lines]. rewrite H1.
      rewrite IH by (done || by left). simpl. by rewrite <- app_assoc. }
  rewrite Hone by (done || right; by destruct text).
  cbn [map concat fst snd rev app]. rewrite !app_nil_r.
  destruct (strip text); [done|]. reflexivity.
Qed.

Lemma strip_strip_not_nil (text : list N) :
  strip text <> [] -> strip (strip text) <> [].
Proof.
  intros H. destruct (strip text) as [|c r] eqn:E; [done|].
  pose proof (strip_cons_nonspace _ _ _ E) as Hc.
  unfold strip. simpl. rewrite Hc. by rewrite rstrip_cons_nonspace.
Qed.

(** C3, amended: for a value that is absent ([None] or a missing key) or an
    empty list or tuple, [example_with_value] returns the commented
    placeholder line, built from the canonical flag and the formatter's
    syntax for the action and from nothing else.  The active form, the only
    output that starts with a space, is returned only for a value that is
    not [None], a flag outside the commented set and a non-empty quoted,
    joined value. *)
Theorem example_with_value_rendering (parser : ArgumentParser)
    (action : Action) (opts : gmap (list N) pyval) (w : world) :
  let long := canonical action in
  let arg := opts_get opts (dest action) in
  let placeholder :=
    strip (long ++ u " " ++ format_args parser action (dest action)) in
  (arg = VAtom ANone \/ arg = VList [] \/ arg = VTuple [] ->
   eval (example_with_value parser action opts) w
   = Ok (comment placeholder (u "#") 0) /\
   (placeholder <> [] ->
    Forall (fun c => islinebreak c = false) placeholder ->
    comment placeholder (u "#") 0 = u "# " ++ placeholder)) /\
  (forall out,
     eval (example_with_value parser action opts) w = Ok out ->
     head out = Some SPACE ->
     exists config w1,
       get_config (u "comment") w = Ok (config, w1) /\
       arg <> VAtom ANone /\ (long ∉ config) /\ quoted_value arg <> [] /\
       out = u " " ++ long ++ u " " ++ quoted_value arg).
Proof.
  intros long arg placeholder.
  destruct (get_config_total (u "comment") w ltac:(by eexists))
    as (config & w1 & Hg).
  split.
  - intros Harg. split.
    + destruct Harg as [Ha | Ha].
      * unfold eval. by rewrite example_with_value_absent.
      * assert (is_none (opts_get opts (dest action)) = false) as Hn.
        { change (is_none arg = false). by destruct Ha as [Ha|Ha]; rewrite Ha. }
        unfold eval. rewrite (example_with_value_present _ _ _ _ _ _ Hn Hg).
        change (opts_get opts (dest action)) with arg.
        assert (quoted_value arg = []) as ->
          by (by destruct Ha as [Ha|Ha]; rewrite Ha).
        by rewrite orb_true_r.
    + intros Hne Hb. apply comment_one_line; [|done].
      by apply strip_strip_not_nil.
  - intros out Hout Hhead. exists config, w1. split; [done|].
    destruct (is_none arg) eqn:Hn.
    + assert (arg = VAtom ANone) as Ha
        by (by destruct arg as [[]| |]).
      unfold eval in Hout. rewrite example_with_value_absent in Hout by done.
      inversion Hout; subst out. by apply comment_strip_head in Hhead.
    + unfold eval in Hout.
      rewrite (example_with_value_present _ _ _ _ _ _ Hn Hg) in Hout.
      fold arg long in Hout.
      destruct (bool_decide (long ∈ config)) eqn:Hc; simpl in Hout.
      { inversion Hout; subst out. by apply comment_strip_head in Hhead. }
      destruct (nonempty (quoted_value arg)) eqn:Hv; simpl in Hout.
      2:{ inversion Hout; subst out. by apply comment_strip_head in Hhead. }
      inversion Hout; subst out.
      split; [by intros ->|]. split; [by apply bool_decide_eq_false in Hc|].
      split; [by destruct (quoted_value arg)|done].
Qed.

(** ** Malformed lines *)

Lemma lines_tokens_raise (ls : list (list N)) (line : list N) (e : exn) :
  line ∈ ls -> line_tokens line = Raise e ->
  exists e', lines_tokens ls = Raise e'.
Proof.
  induction ls as [|l ls IH]; intros Hin He; [by apply elem_of_nil in Hin|].
  cbn [lines_tokens foldr]. fold (lines_tokens ls).
  apply elem_of_cons in Hin as [<- | Hin].
  - rewrite He. eauto.
  - destruct (IH Hin He) as [e' ->]. destruct (line_tokens l); simpl; eauto.
Qed.

(** C8: if a line of the text that is neither blank nor a comment fails to
    tokenize, [split_args] raises: no argument list is returned. *)
Theorem split_args_malformed (text line : list N) (e : exn) :
  line ∈ splitlines false text ->
  kept_line (strip line) = true ->
  shlex_split (strip line) = Raise e ->
  exists e', split_args text = Raise e'.
Proof.
  intros Hin Hk He. rewrite split_args_lines.
  apply lines_tokens_raise with (line := line) (e := e); [done|].
  unfold line_tokens. by rewrite Hk.
Qed.

Lemma lex_open_quote (q : N) (s : list N) :
  Forall (fun c => c <> q /\ c <> BACKSLASH) s ->
  forall quoted token,
    lex (LQuote q) quoted token s = Raise (ValueError "No closing quotation").
Proof.
  induction 1 as [|c s [Hq Hb] _ IH]; intros quoted token; [done|].
  cbn [lex]. rewrite (proj2 (N.eqb_neq c q)) by done.
  assert (char_in c shlex_escape = false) as ->.
  { unfold char_in, shlex_escape. simpl.
    rewrite (proj2 (N.eqb_neq c 92)) by done. done. }
  simpl. apply IH.
Qed.

(** X18: when a line of the edited file that is neither blank nor a comment
    fails to tokenize, [command] raises: nothing is handed to [cli.main]. *)
Lemma command_malformed (parser : ArgumentParser) (opts opts' : gmap (list N) pyval)
    (w w' : world) (examples edited line : list N) (e : exn) :
  expand_computed_opts opts = Ok opts' ->
  all_examples parser (_actions parser) opts' w = Ok (examples, w') ->
  edit_tmpfile (join (linesep ++ linesep) [HEADER; examples]) = Ok edited ->
  line ∈ splitlines false edited ->
  kept_line (strip line) = true ->
  shlex_split (strip line) = Raise e ->
  exists e', command parser opts w = Raise e'.
Proof.
  intros Hx Hdoc Hed Hin Hk He.
  assert (exists e', split_args edited = Raise e') as [e' Hs].
  { rewrite split_args_lines.
    apply lines_tokens_raise with (line := line) (e := e); [done|].
    unfold line_tokens. by rewrite Hk. }
  exists e'. unfold command. rewrite bind_unfold. unfold lift at 1. rewrite Hx.
  rewrite bind_unfold, Hdoc. rewrite bind_unfold. unfold lift at 1. rewrite Hed.
  rewrite bind_unfold. unfold lift. by rewrite Hs.
Qed.

(** An opening quote that is never closed is malformed. *)
Lemma shlex_split_unbalanced_quote (s1 s2 : list N) (q : N) :
  char_in q shlex_quotes = true ->
  Forall (fun c => char_in c shlex_quotes = false /\ c <> BACKSLASH) s1 ->
  Forall (fun c => c <> q /\ c <> BACKSLASH) s2 ->
  shlex_split (s1 ++ q :: s2) = Raise (ValueError "No closing quotation").
Proof.
  intros Hq H1 H2. unfold shlex_split.
  assert (char_in q shlex_whitespace = false /\ char_in q shlex_escape = false)
    as [Hqw Hqe].
  { unfold char_in, shlex_quotes in Hq. simpl in Hq.
    rewrite !orb_true_iff, !N.eqb_eq in Hq.
    by destruct Hq as [-> | [-> | ?]]. }
  assert (forall state quoted token,
            state = LSpace \/ state = LWord ->
            lex state quoted token (s1 ++ q :: s2)
            = Raise (ValueError "No closing quotation")) as Hlex.
  { induction H1 as [|c s1 [Hcq Hcb] _ IH]; intros state quoted token Hst.
    - simpl app. destruct Hst as [-> | ->]; cbn [lex];
        rewrite Hqw, ?Hqe, Hq; by apply lex_open_quote.
    - assert (char_in c shlex_escape = false) as Hce.
      { unfold char_in, shlex_escape. simpl.
        rewrite (proj2 (N.eqb_neq c 92)) by done. done. }
      simpl app. destruct Hst as [-> | ->]; cbn [lex]; rewrite ?Hce, ?Hcq.
      + destruct (char_in c shlex_whitespace).
        * destruct (_ || _); [|by apply IH; left].
          by rewrite (IH LSpace) by (by left).
        * apply IH. by right.
      + destruct (char_in c shlex_whitespace).
        * destruct (_ || _); [|by apply IH; left].
          by rewrite (IH LSpace) by (by left).
        * apply IH. by right. }
  apply Hlex. by left.
Qed.

(** ** Actions without option strings *)


(** ** The canonical spelling and the alternatives *)

Lemma index_last_snoc {A} (l : list A) (x : A) : index_last (l ++ [x]) = Ok x.
Proof. unfold index_last. by rewrite rev_unit. Qed.

Lemma drop_last_snoc {A} (l : list A) (x : A) : drop_last (l ++ [x]) = l.
Proof. unfold drop_last. apply removelast_last. Qed.

Lemma insert_by_len_perm (x : list N) (l : list (list N)) :
  Permutation (insert_by_len x l) (x :: l).
Proof.
  induction l as [|y l IH]; simpl; [done|].
  case_match; [done|]. rewrite IH. apply perm_swap.
Qed.

Lemma sorted_by_len_perm (l : list (list N)) : Permutation (sorted_by_len l) l.
Proof.
  induction l as [|x l IH]; simpl; [done|].
  rewrite insert_by_len_perm. by rewrite IH.
Qed.

Lemma insert_by_len_sorted (x : list N) (l : list (list N)) :
  StronglySorted (fun a b => (length a <= length b)%nat) l ->
  StronglySorted (fun a b => (length a <= length b)%nat) (insert_by_len x l).
Proof.
  induction 1 as [|y l Hs IH Hy]; simpl.
  - repeat constructor.
  - destruct (length x <=? length y)%nat eqn:E.
    + apply Nat.leb_le in E. constructor; [by constructor|].
      constructor; [done|]. eapply Forall_impl; [exact Hy|].
      simpl. intros; lia.
    + apply Nat.leb_gt in E. constructor; [done|].
      rewrite insert_by_len_perm. constructor; [lia | done].
Qed.

Lemma sorted_by_len_sorted (l : list (list N)) :
  StronglySorted (fun a b => (length a <= length b)%nat) (sorted_by_len l).
Proof.
  induction l as [|x l IH]; simpl; [constructor|].
  by apply insert_by_len_sorted.
Qed.

Lemma insert_by_len_longest (x : list N) (l : list (list N)) :
  Forall (fun y => (length y < length x)%nat) l ->
  insert_by_len x l = l ++ [x].
Proof.
  induction 1 as [|y l Hy _ IH]; simpl; [done|].
  rewrite (proj2 (Nat.leb_gt _ _)) by done. by rewrite IH.
Qed.

Lemma insert_by_len_keeps_last (a x : list N) (l : list (list N)) :
  (length a <= length x)%nat ->
  exists l', insert_by_len a (l ++ [x]) = l' ++ [x].
Proof.
  intros Hle. induction l as [|y l [l' IH]]; simpl.
  - rewrite (proj2 (Nat.leb_le _ _)) by done. by exists [a].
  - destruct (length a <=? length y)%nat.
    + by exists (a :: y :: l).
    + rewrite IH. by exists (y :: l').
Qed.

(** The sorted spellings end with the last of the longest ones. *)
Lemma sorted_by_len_last (l1 l2 : list (list N)) (x : list N) :
  Forall (fun o => (length o <= length x)%nat) l1 ->
  Forall (fun o => (length o < length x)%nat) l2 ->
  exists alts, sorted_by_len (l1 ++ x :: l2) = alts ++ [x].
Proof.
  intros H1 H2. induction H1 as [|a l1 Ha _ [alts IH]].
  - simpl. exists (sorted_by_len l2). apply insert_by_len_longest.
    by rewrite sorted_by_len_perm.
  - simpl. rewrite IH. by apply insert_by_len_keeps_last.
Qed.

(** X1: [long_option] returns the longest option string, and of several
    longest ones the one registered last. *)
Theorem long_option_last_longest (action : Action) (l1 l2 : list (list N))
    (x : list N) :
  option_strings action = l1 ++ x :: l2 ->
  Forall (fun o => (length o <= length x)%nat) l1 ->
  Forall (fun o => (length o < length x)%nat) l2 ->
  long_option action = Ok x /\
  forall o, o ∈ option_strings action -> (length o <= length x)%nat.
Proof.
  intros Hos H1 H2. split.
  - destruct (sorted_by_len_last l1 l2 x H1 H2) as [alts Hs].
    unfold long_option. rewrite Hos.
    destruct (l1 ++ x :: l2) eqn:E; [by destruct l1|].
    rewrite Hs. apply index_last_snoc.
  - intros o. rewrite Hos, elem_of_app, elem_of_cons.
    rewrite Forall_forall in H1. rewrite Forall_forall in H2.
    intros [Ho | [-> | Ho]]; [by apply H1 | done |].
    specialize (H2 o Ho). lia.
Qed.

(** X2: the alternatives that [alternative_flags] lists are all the option
    strings but the canonical one, each exactly once, shortest first; the
    text is empty exactly when there is no alternative. *)
Theorem alternative_flags_others (action : Action) (l1 l2 : list (list N))
    (x : list N) :
  option_strings action = l1 ++ x :: l2 ->
  Forall (fun o => (length o <= length x)%nat) l1 ->
  Forall (fun o => (length o < length x)%nat) l2 ->
  exists alts,
    Permutation alts (l1 ++ l2) /\
    StronglySorted (fun a b => (length a <= length b)%nat) alts /\
    alternative_flags action
    = match alts with
      | [] => []
      | _ => u "(or alternatively: " ++ join (u " ") alts ++ u ")"
      end /\
    (alternative_flags action = [] <-> l1 ++ l2 = []).
Proof.
  intros Hos H1 H2.
  destruct (sorted_by_len_last l1 l2 x H1 H2) as [alts Hs].
  assert (Permutation alts (l1 ++ l2)) as Hp.
  { apply (Permutation_cons_inv (a := x)).
    rewrite (Permutation_middle l1 l2 x), <- (sorted_by_len_perm (l1 ++ x :: l2)).
    rewrite Hs. by rewrite Permutation_app_comm. }
  assert (alternative_flags action
          = match alts with
            | [] => []
            | _ => u "(or alternatively: " ++ join (u " ") alts ++ u ")"
            end) as Halt.
  { unfold alternative_flags. by rewrite Hos, Hs, drop_last_snoc. }
  exists alts. split; [done|]. split; [|split; [done|]].
  - pose proof (sorted_by_len_sorted (l1 ++ x :: l2)) as Hsorted.
    rewrite Hs in Hsorted.
    clear -Hsorted. induction alts as [|a alts IH]; [constructor|].
    simpl in Hsorted. inversion Hsorted as [|? ? Hs' Hf]; subst.
    constructor; [by apply IH|]. by apply Forall_app in Hf as [Hf _].
  - rewrite Halt. split.
    + destruct alts; [|done]. intros _.
      by apply Permutation_nil_l in Hp.
    + intros E. rewrite E in Hp. by apply Permutation_nil_r in Hp as ->.
Qed.

(** ** More on the suppression sets *)

Lemma elem_of_reduce_reducer (kind : list N) (exts : list pyobj)
    (base : list (list N)) (x : list N) :
  x ∈ reduce (_reducer kind) exts (list_to_set base) <->
  x ∈ base \/ exists ext, ext ∈ exts /\ x ∈ contribution kind ext.
Proof.
  rewrite reduce_reducer_union, elem_of_union, elem_of_list_to_set,
    elem_of_union_list.
  split; (intros [Hx | Hx]; [by left | right]).
  - destruct Hx as (X & HX & Hx).
    apply list_elem_of_fmap in HX as (ext & -> & Hext). eauto.
  - destruct Hx as (ext & Hext & Hx). exists (contribution kind ext).
    split; [|done]. apply list_elem_of_fmap. eauto.
Qed.

(** X3: the set [get_config] computes does not depend on the order in which
    [iterate_entry_points] yields the installed objects. *)
Theorem get_config_registry_order (kind : list N) (w1 w2 : world) :
  cache w1 !! kind = None -> cache w2 !! kind = None ->
  Permutation (installed w1) (installed w2) ->
  eval (get_config kind) w1 = eval (get_config kind) w2.
Proof.
  intros Hc1 Hc2 Hp. destruct (CONFIG !! kind) as [base|] eqn:Hk.
  - unfold eval. rewrite (get_config_miss _ _ _ Hc1 Hk),
      (get_config_miss _ _ _ Hc2 Hk).
    f_equal. apply set_eq. intros x. rewrite !elem_of_reduce_reducer.
    split; (intros [Hx | (ext & Hext & Hx)]; [by left | right]);
      exists ext; (split; [|done]).
    + by rewrite <- Hp.
    + by rewrite Hp.
  - unfold eval. by rewrite !get_config_invalid.
Qed.

(** X4: installing more extensions can only add to a suppression set, and
    no extension can take out a spelling of the static base set. *)
Theorem get_config_grows (kind : list N) (w1 w2 w1' w2' : world)
    (s1 s2 : gset (list N)) (base : list (list N)) :
  cache w1 !! kind = None -> cache w2 !! kind = None ->
  (forall ext, ext ∈ installed w1 -> ext ∈ installed w2) ->
  CONFIG !! kind = Some base ->
  get_config kind w1 = Ok (s1, w1') ->
  get_config kind w2 = Ok (s2, w2') ->
  s1 ⊆ s2 /\ forall x, x ∈ base -> x ∈ s1.
Proof.
  intros Hc1 Hc2 Hsub Hk H1 H2.
  rewrite (get_config_miss _ _ _ Hc1 Hk) in H1.
  rewrite (get_config_miss _ _ _ Hc2 Hk) in H2.
  inversion H1; inversion H2; subst. split.
  - intros x. rewrite !elem_of_reduce_reducer.
    intros [Hx | (ext & Hext & Hx)]; [by left | right]. eauto.
  - intros x Hx. apply elem_of_reduce_reducer. by left.
Qed.

(** *** Calls after the cache is filled *)

Lemma grows_refl w : grows w w.
Proof. unfold grows. done. Qed.

Lemma grows_trans w1 w2 w3 : grows w1 w2 -> grows w2 w3 -> grows w1 w3.
Proof. unfold grows. intros H1 H2. by etransitivity. Qed.

Lemma settles_ret {A} (a : A) : settles (ret a).
Proof.
  intros w a' w' H. inversion H; subst. split; [apply grows_refl|]. done.
Qed.

Lemma settles_lift {A} (r : result A) : settles (lift r).
Proof.
  intros w a w' H. unfold lift in *. destruct r; inversion H; subst.
  split; [apply grows_refl|]. done.
Qed.

Lemma settles_get_config kind : settles (get_config kind).
Proof.
  intros w s w' H.
  destruct (get_config_inv _ _ _ _ H) as [[Hc ->] | (Hc & _ & Hc' & _)].
  - split; [apply grows_refl|]. intros w2 Hg. apply get_config_hit.
    by eapply lookup_weaken.
  - split.
    + unfold grows. rewrite Hc'. by apply insert_subseteq.
    + intros w2 Hg. apply get_config_hit.
      eapply lookup_weaken; [|exact Hg]. rewrite Hc'. apply lookup_insert_eq.
Qed.

Lemma settles_bind {A B} (m : M A) (k : A -> M B) :
  settles m -> (forall a, settles (k a)) -> settles (bind m k).
Proof.
  intros Hm Hk w b w' H. apply bind_ok in H as (a & w1 & H1 & H2).
  destruct (Hm _ _ _ H1) as [G1 R1]. destruct (Hk a _ _ _ H2) as [G2 R2].
  split; [by eapply grows_trans|].
  intros w2 Hg. rewrite bind_unfold.
  rewrite (R1 w2) by (by eapply grows_trans). by apply R2.
Qed.

Lemma settles_if {A} (b : bool) (m1 m2 : M A) :
  settles m1 -> settles m2 -> settles (if b then m1 else m2).
Proof. by destruct b. Qed.

Ltac settles_steps :=
  repeat first
    [ apply settles_ret | apply settles_lift | apply settles_get_config
    | apply settles_if | apply settles_bind; [|intros ?] ].

Lemma settles_example parser action opts : settles (example parser action opts).
Proof.
  unfold example. destruct (nargs_is_zero (nargs action)).
  - unfold example_no_value. settles_steps.
  - unfold example_with_value. settles_steps.
Qed.

Lemma settles_all_examples_parts parser actions opts :
  settles (all_examples_parts parser actions opts).
Proof.
  induction actions as [|a rest IH]; simpl; [apply settles_ret|].
  apply settles_bind; [apply settles_lift|]. intros long.
  apply settles_bind; [apply settles_get_config|]. intros ignored.
  apply settles_if; [exact IH|].
  apply settles_bind.
  - unfold example_with_help. apply settles_bind; [apply settles_example|].
    intros ?. apply settles_ret.
  - intros part. apply settles_bind; [exact IH|]. intros ?. apply settles_ret.
Qed.

(** X5: rendering is repeatable and blind to later installations: in the
    state a call of [all_examples] leaves behind, or in any state that has
    cached at least as much, whatever is installed by then, the same call
    returns the same document and changes nothing. *)
Theorem all_examples_repeatable (parser : ArgumentParser)
    (actions : list Action) (opts : gmap (list N) pyval) (w w' : world)
    (doc : list N) :
  all_examples parser actions opts w = Ok (doc, w') ->
  forall w2, cache w' ⊆ cache w2 ->
    all_examples parser actions opts w2 = Ok (doc, w2).
Proof.
  intros H.
  assert (settles (all_examples parser actions opts)) as Hs.
  { unfold all_examples. apply settles_bind;
      [apply settles_all_examples_parts | intros ?; apply settles_ret]. }
  apply (Hs _ _ _ H).
Qed.

(** ** Quoting and tokenizing *)

Lemma is_safe_char_cases c :
  is_safe_char c = true ->
  48 <= c <= 57 \/ 65 <= c <= 90 \/ 97 <= c <= 122 \/ c = 95 \/
  c = 64 \/ c = 37 \/ c = 43 \/ c = 61 \/ c = 58 \/ c = 44 \/ c = 46 \/
  c = 47 \/ c = 45.
Proof.
  unfold is_safe_char, char_in. cbn [u list_ascii_of_string map existsb].
  rewrite !orb_true_iff, !andb_true_iff, !N.leb_le, !N.eqb_eq.
  cbn. lia.
Qed.

Lemma safe_char_plain c :
  is_safe_char c = true ->
  char_in c shlex_whitespace = false /\ char_in c shlex_quotes = false /\
  char_in c shlex_escape = false /\ isspace c = false /\
  islinebreak c = false /\ (c =? HASH) = false.
Proof.
  intros H%is_safe_char_cases.
  unfold char_in, shlex_whitespace, shlex_quotes, shlex_escape, isspace,
    islinebreak, HASH. cbn [existsb].
  repeat split; apply not_true_is_false;
    rewrite ?orb_true_iff, ?andb_true_iff, ?N.leb_le, ?N.eqb_eq; lia.
Qed.

Lemma lex_word_safe (s : list N) :
  forallb is_safe_char s = true ->
  forall quoted token tail,
    lex LWord quoted token (s ++ tail) = lex LWord quoted (token ++ s) tail.
Proof.
  induction s as [|c s IH]; intros Hs quoted token tail.
  - by rewrite app_nil_r.
  - simpl in Hs. apply andb_true_iff in Hs as [Hc Hs].
    destruct (safe_char_plain c Hc) as (Hw & Hq & He & _).
    simpl app. cbn [lex]. rewrite Hw, Hq, He. rewrite IH by done.
    by rewrite <- app_assoc.
Qed.

Lemma lex_in_single_quotes (s : list N) :
  forall quoted token tail,
    lex (LQuote QUOTE) quoted token (escape_single_quotes s ++ QUOTE :: tail)
    = lex LWord true (token ++ s) tail.
Proof.
  induction s as [|c s IH]; intros quoted token tail.
  - simpl. by rewrite app_nil_r.
  - cbn [escape_single_quotes]. destruct (c =? QUOTE) eqn:E.
    + apply N.eqb_eq in E. subst c. rewrite <- app_assoc.
      change ([39; 34; 39; 34; 39] ++ escape_single_quotes s ++ QUOTE :: tail)
        with (39 :: 34 :: 39 :: 34 :: 39
                :: (escape_single_quotes s ++ QUOTE :: tail)).
      cbn [lex]. change (39 =? QUOTE) with true. cbv iota.
      change (char_in 34 shlex_whitespace) with false.
      change (char_in 34 shlex_quotes) with true. cbv iota.
      change (39 =? 34) with false.
      change (char_in 39 shlex_escape && char_in 34 shlex_escapedquotes)
        with false. cbv iota.
      change (34 =? 34) with true. cbv iota.
      change (char_in 39 shlex_whitespace) with false.
      change (char_in 39 shlex_quotes) with true. cbv iota.
      rewrite IH. by rewrite <- app_assoc.
    + rewrite <- app_assoc. simpl app. cbn [lex]. rewrite E.
      change (char_in QUOTE shlex_escapedquotes) with false.
      rewrite andb_false_r. rewrite IH. by rewrite <- app_assoc.
Qed.

(** After a quoted string the lexer is in a word that holds the string. *)
Lemma lex_shlex_quote (s : list N) :
  exists quoted,
    nonempty s || quoted = true /\
    forall tail,
      lex LSpace false [] (shlex_quote s ++ tail) = lex LWord quoted s tail.
Proof.
  unfold shlex_quote. destruct s as [|c s].
  - exists true. split; [done|]. intros tail. reflexivity.
  - cbn [nonempty negb]. destruct (forallb is_safe_char (c :: s)) eqn:Hs.
    + exists false. split; [done|]. intros tail.
      simpl in Hs. apply andb_true_iff in Hs as [Hc Hs].
      destruct (safe_char_plain c Hc) as (Hw & Hq & He & _).
      simpl app. cbn [lex]. rewrite Hw, Hq, He.
      by rewrite lex_word_safe.
    + exists true. split; [done|]. intros tail.
      rewrite <- !app_assoc.
      change ([QUOTE] ++ escape_single_quotes (c :: s) ++ [QUOTE] ++ tail)
        with (QUOTE :: (escape_single_quotes (c :: s) ++ QUOTE :: tail)).
      cbn [lex]. change (char_in QUOTE shlex_whitespace) with false.
      change (char_in QUOTE shlex_escape) with false.
      change (char_in QUOTE shlex_quotes) with true. cbv iota.
      by rewrite lex_in_single_quotes.
Qed.

Lemma lex_word_end quoted token :
  nonempty token || quoted = true -> lex LWord quoted token [] = Ok [token].
Proof. intros H. simpl. by rewrite H. Qed.

Lemma lex_word_space quoted token rest :
  nonempty token || quoted = true ->
  lex LWord quoted token (SPACE :: rest)
  = rbind (lex LSpace false [] rest) (fun ts => Ok (token :: ts)).
Proof. intros H. cbn [lex]. change (char_in SPACE shlex_whitespace) with true.
  cbv iota. by rewrite H. Qed.

(** [shlex.split] undoes [shlex.quote] on every member of a joined list. *)
Lemma shlex_split_join_quote (l : list (list N)) :
  shlex_split (join (u " ") (map shlex_quote l)) = Ok l.
Proof.
  unfold shlex_split. induction l as [|s l IH]; [reflexivity|].
  destruct (lex_shlex_quote s) as (quoted & Hq & Hlex).
  destruct l as [|s2 l].
  - cbn [map join]. rewrite <- (app_nil_r (shlex_quote s)), Hlex.
    by apply lex_word_end.
  - change (join (u " ") (map shlex_quote (s :: s2 :: l)))
      with (shlex_quote s ++ SPACE :: join (u " ") (map shlex_quote (s2 :: l))).
    rewrite Hlex, lex_word_space by done. by rewrite IH.
Qed.

(** *** Lines made of quoted words *)

Lemma strip_tight (s : list N) : tight s -> strip s = s.
Proof.
  intros [(c & r & -> & Hc & _) (d & r' & Hrev & Hd)].
  unfold strip. simpl lstrip. rewrite Hc. unfold rstrip. rewrite Hrev.
  simpl lstrip. rewrite Hd. rewrite <- Hrev. apply rev_involutive.
Qed.

Lemma tight_shlex_quote (s : list N) : tight (shlex_quote s).
Proof.
  unfold shlex_quote. destruct s as [|c s].
  - split; [by exists QUOTE, [QUOTE] | by exists QUOTE, [QUOTE]].
  - cbn [nonempty negb]. destruct (forallb is_safe_char (c :: s)) eqn:Hs.
    + split.
      * simpl in Hs. apply andb_true_iff in Hs as [Hc _].
        destruct (safe_char_plain c Hc) as (_ & _ & _ & Hsp & _ & Hh).
        by exists c, s.
      * destruct (rev (c :: s)) as [|d r] eqn:E.
        { apply (f_equal (@length N)) in E. rewrite length_rev in E. done. }
        exists d, r. split; [done|].
        assert (In d (c :: s)) as Hin.
        { apply in_rev. rewrite E. by left. }
        rewrite forallb_forall in Hs.
        by destruct (safe_char_plain d (Hs d Hin)) as (_ & _ & _ & Hsp & _).
    + split; [by eexists QUOTE, _|].
      exists QUOTE. eexists. rewrite !rev_app_distr. simpl. split; [reflexivity|done].
Qed.

Lemma tight_app (a m b : list N) : tight a -> tight b -> tight (a ++ m ++ b).
Proof.
  intros [(c & r & -> & Hc) _] [_ (d & r' & Hrev & Hd)]. split.
  - by eexists c, _.
  - exists d. eexists. rewrite !rev_app_distr, Hrev. simpl.
    split; [reflexivity|done].
Qed.

Lemma tight_join (sep : list N) (l : list (list N)) :
  l <> [] -> Forall tight l -> tight (join sep l).
Proof.
  intros Hne Hl. induction Hl as [|s l Hs Hl IH]; [done|].
  destruct l as [|s2 l]; [done|].
  change (join sep (s :: s2 :: l)) with (s ++ sep ++ join sep (s2 :: l)).
  apply tight_app; [done|]. by apply IH.
Qed.

Lemma escape_single_quotes_no_break (s : list N) :
  Forall (fun c => islinebreak c = false) s ->
  Forall (fun c => islinebreak c = false) (escape_single_quotes s).
Proof.
  induction 1 as [|c s Hc _ IH]; simpl; [constructor|].
  apply Forall_app. split; [|done].
  destruct (c =? QUOTE); repeat constructor; done.
Qed.

Lemma shlex_quote_no_break (s : list N) :
  Forall (fun c => islinebreak c = false) s ->
  Forall (fun c => islinebreak c = false) (shlex_quote s).
Proof.
  intros Hs. unfold shlex_quote. destruct (negb (nonempty s)).
  - by repeat constructor.
  - destruct (forallb is_safe_char s); [done|].
    rewrite !Forall_app. split; [by repeat constructor|]. split.
    + by apply escape_single_quotes_no_break.
    + by repeat constructor.
Qed.

Lemma join_no_break (l : list (list N)) :
  Forall (Forall (fun c => islinebreak c = false)) l ->
  Forall (fun c => islinebreak c = false) (join (u " ") l).
Proof.
  induction 1 as [|s l Hs Hl IH]; [constructor|].
  destruct l as [|s2 l]; [done|].
  change (join (u " ") (s :: s2 :: l))
    with (s ++ SPACE :: join (u " ") (s2 :: l)).
  apply Forall_app. split; [done|]. by constructor.
Qed.

(** A line of quoted words after some spaces parses back to the words. *)
Lemma split_args_quoted_words (n : nat) (words : list (list N)) :
  words <> [] ->
  Forall (Forall (fun c => islinebreak c = false)) words ->
  split_args (repeat SPACE n ++ join (u " ") (map shlex_quote words))
  = Ok words.
Proof.
  intros Hne Hnb.
  assert (tight (join (u " ") (map shlex_quote words))) as Ht.
  { apply tight_join; [by destruct words|].
    apply Forall_forall. intros x Hx%list_elem_of_fmap.
    destruct Hx as (s & -> & _). apply tight_shlex_quote. }
  rewrite split_args_one_line.
  - unfold line_tokens.
    assert (strip (repeat SPACE n ++ join (u " ") (map shlex_quote words))
            = join (u " ") (map shlex_quote words)) as ->.
    { unfold strip. rewrite lstrip_spaces. by apply strip_tight. }
    destruct Ht as [(c & r & E & _ & Hh) _]. rewrite E at 1.
    simpl kept_line. rewrite Hh. simpl. apply shlex_split_join_quote.
  - apply Forall_app. split.
    + apply Forall_forall. intros x Hx%list_elem_of_In%repeat_spec. by subst.
    + apply join_no_break. apply Forall_forall.
      intros x Hx%list_elem_of_fmap. destruct Hx as (s & -> & Hs).
      apply shlex_quote_no_break. rewrite Forall_forall in Hnb. by apply Hnb.
Qed.

Lemma shlex_quote_safe (s : list N) :
  s <> [] -> forallb is_safe_char s = true -> shlex_quote s = s.
Proof. intros Hne Hs. unfold shlex_quote. destruct s; [done|]. simpl nonempty. simpl negb. cbv iota. by rewrite Hs. Qed.

Lemma safe_no_break (s : list N) :
  forallb is_safe_char s = true -> Forall (fun c => islinebreak c = false) s.
Proof.
  intros Hs. apply Forall_forall. intros c Hc%list_elem_of_In.
  rewrite forallb_forall in Hs.
  by destruct (safe_char_plain c (Hs c Hc)) as (_ & _ & _ & _ & Hb & _).
Qed.

(** ** What the rendered lines parse back to *)

Lemma quoted_value_tight (arg : pyval) :
  members arg <> [] ->
  quoted_value arg = join (u " ") (map shlex_quote (map format_atom (members arg)))
  /\ tight (quoted_value arg).
Proof.
  intros Hne.
  assert (tight (join (u " ") (map shlex_quote (map format_atom (members arg)))))
    as Ht.
  { apply tight_join; [by destruct (members arg)|].
    apply Forall_forall. intros x Hx%list_elem_of_fmap.
    destruct Hx as (s & -> & _). apply tight_shlex_quote. }
  assert (quoted_value arg
          = strip (join (u " ") (map shlex_quote (map format_atom (members arg)))))
    as E.
  { unfold quoted_value. fold (members arg). by rewrite map_map. }
  rewrite E, strip_tight by done. done.
Qed.

(** X6: an active line of [example_with_value] parses back to the flag
    followed by the members of the value as [f"{a}"] formats them, one
    token each, whatever characters they hold except line breaks (a
    positional, whose flag is empty, gives the members alone). *)
Theorem example_with_value_round_trip (parser : ArgumentParser)
    (action : Action) (opts : gmap (list N) pyval) (w w' : world)
    (config : gset (list N)) :
  get_config (u "comment") w = Ok (config, w') ->
  canonical action ∉ config ->
  is_none (opts_get opts (dest action)) = false ->
  members (opts_get opts (dest action)) <> [] ->
  forallb is_safe_char (canonical action) = true ->
  Forall (fun a => Forall (fun c => islinebreak c = false) (format_atom a))
         (members (opts_get opts (dest action))) ->
  exists out,
    example_with_value parser action opts w = Ok (out, w') /\
    out = u " " ++ canonical action ++ u " "
          ++ quoted_value (opts_get opts (dest action)) /\
    split_args out
    = Ok (match canonical action with [] => [] | long => [long] end
          ++ map format_atom (members (opts_get opts (dest action)))).
Proof.
  intros Hg Hnc Hn Hne Hsafe Hnb.
  destruct (quoted_value_tight _ Hne) as [Hq Ht].
  rewrite (example_with_value_present _ _ _ _ _ _ Hn Hg).
  rewrite bool_decide_eq_false_2 by done.
  assert (nonempty (quoted_value (opts_get opts (dest action))) = true) as ->.
  { destruct Ht as [(c & r & -> & _) _]. done. }
  simpl orb. cbv iota. eexists. split; [reflexivity|]. split; [reflexivity|].
  rewrite Hq.
  assert (Forall (Forall (fun c => islinebreak c = false))
                 (map format_atom (members (opts_get opts (dest action)))))
    as Hvals.
  { apply Forall_forall. intros x Hx%list_elem_of_fmap.
    destruct Hx as (a & -> & Ha). rewrite Forall_forall in Hnb. by apply Hnb. }
  destruct (map format_atom (members (opts_get opts (dest action))))
    as [|v vs] eqn:Ev.
  { by destruct (members (opts_get opts (dest action))). }
  destruct (canonical action) as [|c long] eqn:El.
  - by apply (split_args_quoted_words 2 (v :: vs)).
  - pose proof (split_args_quoted_words 1 ((c :: long) :: v :: vs)
                  ltac:(done)
                  ltac:(constructor; [by apply safe_no_break | done])) as X.
    cbn [map] in X. rewrite (shlex_quote_safe (c :: long)) in X by done.
    exact X.
Qed.

(** X7: a line of [example_no_value] is either the active form, which
    parses back to the flag alone, or the commented flag, which parses to
    nothing. *)
Theorem example_no_value_round_trip (parser : ArgumentParser)
    (action : Action) (opts : gmap (list N) pyval) (w w' : world)
    (out : list N) :
  example_no_value parser action opts w = Ok (out, w') ->
  canonical action <> [] ->
  forallb is_safe_char (canonical action) = true ->
  (out = u " " ++ canonical action /\ split_args out = Ok [canonical action])
  \/ (out = comment (canonical action) (u "#") 0 /\ split_args out = Ok []).
Proof.
  intros H Hne Hsafe.
  destruct (get_config_total (u "comment") w ltac:(by eexists))
    as (config & w1 & Hg).
  rewrite (example_no_value_unfold _ _ _ _ _ _ Hg) in H.
  assert (split_args (u " " ++ canonical action) = Ok [canonical action])
    as Hact.
  { rewrite <- (shlex_quote_safe (canonical action)) at 1 by done.
    apply (split_args_quoted_words 1 [canonical action]); [done|].
    constructor; [by apply safe_no_break | constructor]. }
  destruct (_ && _).
  - inversion H; subst. by left.
  - rewrite bind_unfold in H. unfold lift in H.
    destruct (has_active_extension action opts) as [[|]|e]; inversion H; subst.
    + by left.
    + right. split; [done|]. apply split_args_comment.
Qed.

(** X8: a value option whose flag is in the commented set is always
    rendered as the commented placeholder, whatever its value, and parses to
    nothing. *)
Theorem example_with_value_commented_set (parser : ArgumentParser)
    (action : Action) (opts : gmap (list N) pyval) (w w1 : world)
    (config : gset (list N)) :
  get_config (u "comment") w = Ok (config, w1) ->
  canonical action ∈ config ->
  exists out,
    eval (example_with_value parser action opts) w = Ok out /\
    out = comment (strip (canonical action ++ u " "
                          ++ format_args parser action (dest action)))
                  (u "#") 0 /\
    split_args out = Ok [].
Proof.
  intros Hg Hin. eexists. split; [|split; [reflexivity | apply split_args_comment]].
  unfold eval. destruct (is_none (opts_get opts (dest action))) eqn:Hn.
  - assert (opts_get opts (dest action) = VAtom ANone) as Ha
      by (by destruct (opts_get opts (dest action)) as [[]| |]).
    by rewrite example_with_value_absent.
  - rewrite (example_with_value_present _ _ _ _ _ _ Hn Hg).
    by rewrite bool_decide_eq_true_2.
Qed.

(** X9: the arguments read from a document are those of its example lines,
    in the order of the actions: alternatives and help texts, whatever they
    are, add none. *)
Theorem split_args_all_examples (parser : ArgumentParser)
    (actions : list Action) (opts : gmap (list N) pyval) (w w' : world)
    (doc : list N) :
  linesep_ok ->
  all_examples parser actions opts w = Ok (doc, w') ->
  exists ls,
    example_lines parser actions opts w = Ok (ls, w') /\
    split_args doc
    = foldr (fun al acc => rapp (split_args (snd al)) acc) (Ok []) ls.
Proof.
  intros Hok H. rewrite all_examples_eq in H.
  destruct (example_lines parser actions opts w) as [[ls w2]|e];
    inversion H; subst.
  exists ls. split; [done|]. by apply split_args_document.
Qed.

Lemma example_nothing_set (parser : ArgumentParser) (action : Action)
    (opts : gmap (list N) pyval) (w w' : world) (ex : list N) :
  opts_get opts (dest action) = VAtom ANone ->
  opts !! u "extensions" = None ->
  example parser action opts w = Ok (ex, w') ->
  exists text, ex = comment text (u "#") 0.
Proof.
  intros Hd He H. unfold example in H.
  destruct (nargs_is_zero (nargs action)).
  - destruct (get_config_total (u "comment") w ltac:(by eexists))
      as (config & w1 & Hg).
    rewrite (example_no_value_unfold _ _ _ _ _ _ Hg) in H.
    rewrite Hd in H. simpl truthy in H. rewrite !andb_false_r in H.
    rewrite bind_unfold in H. unfold lift, has_active_extension in H.
    unfold opts_get_list in H. rewrite He in H.
    cbn [default iterate rbind map] in H.
    assert (forall l : list (list N),
              existsb (fun f => bool_decide (Some f ∈ ([] : list (option (list N)))))
                      l = false) as E.
    { intros l. induction l as [|f l IH]; [done|].
      cbn [existsb]. rewrite IH, orb_false_r.
      apply bool_decide_eq_false_2, not_elem_of_nil. }
    rewrite E in H. inversion H; subst. eauto.
  - rewrite example_with_value_absent in H by done.
    inversion H; subst. eauto.
Qed.

Lemma example_lines_nothing_set (parser : ArgumentParser)
    (opts : gmap (list N) pyval) (actions : list Action) :
  Forall (fun a => opts_get opts (dest a) = VAtom ANone) actions ->
  opts !! u "extensions" = None ->
  forall w ls w',
    example_lines parser actions opts w = Ok (ls, w') ->
    Forall (fun al => exists text, snd al = comment text (u "#") 0) ls.
Proof.
  intros Hall He. induction Hall as [|a rest Ha _ IH]; intros w ls w' H.
  - inversion H. constructor.
  - cbn [example_lines] in H. rewrite bind_unfold, lift_long_option in H.
    rewrite bind_unfold in H.
    destruct (get_config (u "ignore") w) as [[ignored w1]|e]; [|done].
    destruct (bool_decide (canonical a ∈ ignored)); [by eapply IH|].
    rewrite bind_unfold in H.
    destruct (example parser a opts w1) as [[ex w2]|e] eqn:Hex; [|done].
    rewrite bind_unfold in H.
    destruct (example_lines parser rest opts w2) as [[ls' w3]|e] eqn:Hls;
      [|done].
    inversion H; subst. constructor.
    + by eapply example_nothing_set.
    + by eapply IH.
Qed.

(** X10: when none of the actions has a value and no extension is asked
    for, the document holds no argument: read back unchanged, it is the
    empty command line. *)
Theorem split_args_nothing_set (parser : ArgumentParser)
    (actions : list Action) (opts : gmap (list N) pyval) (w w' : world)
    (doc : list N) :
  linesep_ok ->
  Forall (fun a => opts_get opts (dest a) = VAtom ANone) actions ->
  opts !! u "extensions" = None ->
  all_examples parser actions opts w = Ok (doc, w') ->
  split_args doc = Ok [].
Proof.
  intros Hok Hall He H.
  pose proof H as H'. rewrite all_examples_eq in H'.
  destruct (example_lines parser actions opts w) as [[ls w2]|e] eqn:Hls;
    [|done].
  eapply split_args_all_commented; [done | exact H | exact Hls |].
  by eapply example_lines_nothing_set.
Qed.

(** ** The command *)

(** X11: when the header is made of comments and the user saves the file
    unchanged, [command] parses the rendered examples: it hands to
    [cli.main] exactly the arguments [split_args] finds in them, in the
    state [all_examples] left, and raises what [split_args] raises when
    they do not parse (a value that holds a line break is cut inside its
    quotes). *)
Theorem command_unedited (parser : ArgumentParser)
    (opts opts' : gmap (list N) pyval) (w w' : world)
    (examples : list N) :
  linesep_ok ->
  split_args HEADER = Ok [] ->
  expand_computed_opts opts = Ok opts' ->
  all_examples parser (_actions parser) opts' w = Ok (examples, w') ->
  edit_tmpfile (join (linesep ++ linesep) [HEADER; examples])
  = Ok (join (linesep ++ linesep) [HEADER; examples]) ->
  command parser opts w
  = match split_args examples with
    | Ok args => cli_main args w'
    | Raise e => Raise e
    end.
Proof.
  intros [Hne Hb] Hh Hx Hdoc Hed.
  unfold command. rewrite bind_unfold. unfold lift at 1. rewrite Hx.
  rewrite bind_unfold, Hdoc. rewrite bind_unfold. unfold lift at 1. rewrite Hed.
  rewrite bind_unfold. unfold lift.
  change (join (linesep ++ linesep) [HEADER; examples])
    with (HEADER ++ (linesep ++ linesep) ++ examples).
  rewrite split_args_app_sep.
  - rewrite Hh. by destruct (split_args examples).
  - by destruct linesep.
  - by rewrite forallb_app, Hb.
Qed.

(** X15: in all cases [all_examples] returns the non-empty blocks of the
    actions that are not ignored, in the order of the actions, joined by
    three line separators; the empty blocks leave nothing, not even a
    separator. *)
Theorem all_examples_nonempty_blocks (parser : ArgumentParser)
    (actions : list Action) (opts : gmap (list N) pyval) (w w1 : world)
    (ignored : gset (list N)) (blocks : list (list N)) :
  get_config (u "ignore") w = Ok (ignored, w1) ->
  Forall2 (fun a b => eval (example_with_help parser a opts) w = Ok b)
          (filter (fun a => canonical a ∉ ignored) actions) blocks ->
  eval (all_examples parser actions opts) w
  = Ok (join (linesep ++ linesep ++ linesep)
             (filter (fun b => b <> []) blocks)).
Proof.
  intros Hg HF.
  pose proof (all_examples_parts_blocks parser opts w w1 ignored actions Hg
                blocks w (extends_refl w) HF) as Hp.
  unfold all_examples, eval, bind, ret. unfold eval in Hp.
  destruct (all_examples_parts parser actions opts w) as [[ps w2]|e];
    inversion Hp; subst.
  unfold join_block. do 2 f_equal. clear.
  induction blocks as [|b bs IH]; [done|].
  destruct b as [|c b].
  - rewrite !filter_cons_False by done. exact IH.
  - rewrite !filter_cons_True by done. by rewrite IH.
Qed.

(** ** comment and the lines of a text *)

Lemma scan_lines_break_split cur c s :
  islinebreak c = true ->
  exists t s', c :: s = t ++ s' /\ (length s' <= length s)%nat /\
               scan_lines cur (c :: s) = (rev cur, t) :: scan_lines [] s'.
Proof.
  intros Hc. cbn [scan_lines]. rewrite Hc. destruct s as [|d s].
  - by exists [c], [].
  - destruct ((c =? CR) && (d =? LF)) eqn:E.
    + exists [c; d], s. split; [done|]. split; [simpl; lia | done].
    + by exists [c], (d :: s).
Qed.

Lemma indent_blank_bounded (prefix : list N) (n : nat) :
  forall s cur, (length s <= n)%nat ->
    forallb isspace cur = true -> forallb isspace s = true ->
    concat (map (fun line => if nonempty (strip line) then prefix ++ line
                             else line)
                (map (fun l => fst l ++ snd l) (scan_lines cur s)))
    = rev cur ++ s.
Proof.
  assert (forall l : list N, forallb isspace l = true ->
            (if nonempty (strip l) then prefix ++ l else l) = l) as Hblank.
  { intros l Hl. apply strip_nil_iff in Hl. by rewrite Hl. }
  assert (forall l : list N, forallb isspace l = true ->
            forallb isspace (rev l) = true) as Hrev.
  { intros l Hl. rewrite forallb_forall in Hl. apply forallb_forall.
    intros x Hx. apply Hl. by apply in_rev. }
  induction n as [|n IH]; intros s cur Hlen Hcur Hs.
  - destruct s; [|simpl in Hlen; lia]. rewrite app_nil_r.
    destruct cur as [|c cur]; [done|].
    cbn [scan_lines map concat fst snd]. rewrite !app_nil_r.
    by apply Hblank, Hrev.
  - destruct s as [|c s]; [apply (IH []); [simpl; lia | done | done]|].
    simpl in Hlen. simpl in Hs. apply andb_true_iff in Hs as [Hc Hs].
    destruct (islinebreak c) eqn:Hb.
    + destruct (scan_lines_break_split cur c s Hb) as (t & s' & E & Hl & ->).
      assert (forallb isspace (t ++ s') = true) as Hts.
      { rewrite <- E. simpl. by rewrite Hc, Hs. }
      rewrite forallb_app in Hts. apply andb_true_iff in Hts as [Ht Hs'].
      cbn [map concat fst snd].
      rewrite Hblank by (rewrite forallb_app, Ht, andb_true_r; by apply Hrev).
      rewrite (IH s' []) by (done || lia). simpl. rewrite E.
      by rewrite <- app_assoc.
    + cbn [scan_lines]. rewrite Hb.
      rewrite IH by (try lia; try done; simpl; by rewrite Hc, Hcur).
      simpl. by rewrite <- app_assoc.
Qed.

(** X12: [comment] leaves a text without a visible character as it is; in
    particular the empty string stays empty. *)
Theorem comment_blank (text mark : list N) (indent_level : nat) :
  forallb isspace text = true -> comment text mark indent_level = text.
Proof.
  intros H. unfold comment, textwrap_indent, splitlines.
  by rewrite (indent_blank_bounded _ (length text) text []).
Qed.

(** X13: a text commented with a mark that starts with ['#'] and holds no
    line break parses to no argument, whatever the text and the
    indentation. *)
Theorem comment_no_argument (text mark : list N) (indent_level : nat)
    (rest : list N) :
  mark = HASH :: rest ->
  Forall (fun c => islinebreak c = false) rest ->
  split_args (comment text mark indent_level) = Ok [].
Proof.
  intros -> Hrest. unfold comment, textwrap_indent, splitlines.
  change (repeat SPACE indent_level ++ (HASH :: rest) ++ u " ")
    with (repeat SPACE indent_level ++ HASH :: (rest ++ [SPACE])).
  apply split_args_indented_lines; [|apply scan_lines_wf].
  apply Forall_app. split; [done | by repeat constructor].
Qed.

(** X14: line breaks separate what [split_args] reads: the arguments of two
    texts joined by one or more line breaks are those of the first followed
    by those of the second, an error in the first coming first; a commented
    text put between them changes nothing. *)
Theorem split_args_compose (a b sep text : list N) (indent_level : nat) :
  sep <> [] -> forallb islinebreak sep = true ->
  split_args (a ++ sep ++ b) = rapp (split_args a) (split_args b) /\
  split_args (a ++ sep ++ comment text (u "#") indent_level ++ sep ++ b)
  = rapp (split_args a) (split_args b).
Proof.
  intros Hne Hsep. split; [by apply split_args_app_sep|].
  rewrite split_args_app_sep by done. f_equal.
  rewrite split_args_app_sep by done.
  by rewrite split_args_comment, rapp_nil_l.
Qed.

(** X16: a text made of white space only, line breaks included, parses to
    the empty argument list. *)
Theorem split_args_blank (text : list N) :
  forallb isspace text = true -> split_args text = Ok [].
Proof.
  intros H.
  pose proof (indent_blank_bounded (repeat SPACE 0 ++ HASH :: [SPACE])
                (length text) text [] ltac:(done) ltac:(done) H) as E.
  cbn [rev app] in E. rewrite <- E at 1.
  apply split_args_indented_lines; [by repeat constructor|].
  apply scan_lines_wf.
Qed.

(** ** What rendering leaves of the state *)

Lemma preserves_ret {A} I (a : A) : preserves I (ret a).
Proof. intros w a' w' Hi H. by inversion H; subst. Qed.

Lemma preserves_lift {A} I (r : result A) : preserves I (lift r).
Proof. intros w a w' Hi H. unfold lift in H. by destruct r; inversion H; subst. Qed.

Lemma preserves_bind {A B} I (m : M A) (k : A -> M B) :
  preserves I m -> (forall a, preserves I (k a)) -> preserves I (bind m k).
Proof.
  intros Hm Hk w b w' Hi H. apply bind_ok in H as (a & w1 & H1 & H2).
  eapply Hk; [|exact H2]. by eapply Hm.
Qed.

Lemma preserves_if {A} I (b : bool) (m1 m2 : M A) :
  preserves I m1 -> preserves I m2 -> preserves I (if b then m1 else m2).
Proof. by destruct b. Qed.

Lemma preserves_get_config exts kind :
  preserves (fun w => cache_ok w /\ installed w = exts) (get_config kind).
Proof.
  intros w s w' [Hok Hi] H. split; [by eapply get_config_cache_ok|].
  destruct (get_config_inv _ _ _ _ H) as [[_ ->] | (_ & Hi' & _)]; congruence.
Qed.

Ltac preserves_steps :=
  repeat first
    [ apply preserves_ret | apply preserves_lift | apply preserves_get_config
    | apply preserves_if | apply preserves_bind; [|intros ?] ].

Lemma preserves_all_examples_parts exts parser actions opts :
  preserves (fun w => cache_ok w /\ installed w = exts)
            (all_examples_parts parser actions opts).
Proof.
  induction actions as [|a rest IH]; simpl; [apply preserves_ret|].
  apply preserves_bind; [apply preserves_lift|]. intros long.
  apply preserves_bind; [apply preserves_get_config|]. intros ignored.
  apply preserves_if; [exact IH|].
  apply preserves_bind.
  - unfold example_with_help. apply preserves_bind; [|intros ?; apply preserves_ret].
    unfold example. destruct (nargs_is_zero (nargs a)).
    + unfold example_no_value. preserves_steps.
    + unfold example_with_value. preserves_steps.
  - intros part. apply preserves_bind; [exact IH|]. intros ?. apply preserves_ret.
Qed.

(** X17: rendering touches the state through the cache of [get_config]
    only: after [all_examples] the installed extensions are the same and the
    cache still holds entries for ["ignore"] and ["comment"] at most, each
    unchanged if it was there before. *)
Theorem all_examples_state (parser : ArgumentParser) (actions : list Action)
    (opts : gmap (list N) pyval) (w w' : world) (doc : list N) :
  cache_ok w ->
  all_examples parser actions opts w = Ok (doc, w') ->
  installed w' = installed w /\ cache_ok w' /\ (size (cache w') <= 2)%nat /\
  cache w ⊆ cache w'.
Proof.
  intros Hok H.
  assert (cache_ok w' /\ installed w' = installed w) as [Hok' Hi].
  { unfold all_examples in H. apply bind_ok in H as (parts & w1 & H1 & H2).
    inversion H2; subst.
    by apply (preserves_all_examples_parts (installed w) parser actions opts
                w parts w'). }
  split; [done|]. split; [done|]. split; [by apply cache_ok_size|].
  assert (settles (all_examples parser actions opts)) as Hs.
  { unfold all_examples. apply settles_bind;
      [apply settles_all_examples_parts | intros ?; apply settles_ret]. }
  by destruct (Hs _ _ _ H) as [Hg _].
Qed.

(** ** The lines of a commented text *)

Lemma scan_lines_app_nobreak (b : list N) :
  Forall (fun c => islinebreak c = false) b ->
  forall cur s, scan_lines cur (b ++ s) = scan_lines (rev b ++ cur) s.
Proof.
  induction 1 as [|c b Hc _ IH]; intros cur s; [done|].
  simpl app. cbn [scan_lines]. rewrite Hc, IH. simpl rev.
  by rewrite <- app_assoc.
Qed.

Lemma is_terminator_not_nil t : is_terminator t -> t <> [].
Proof. by intros [(c & _ & ->) | ->]. Qed.

Lemma lines_exact_concat_nil (ls : list (list N * list N)) :
  lines_exact ls -> concat (map (fun l => fst l ++ snd l) ls) = [] -> ls = [].
Proof.
  destruct ls as [|[b t] ls]; [done|]. intros (_ & Ht & _) E.
  cbn [map concat fst snd] in E.
  apply app_eq_nil in E as [E _]. apply app_eq_nil in E as [-> ->].
  destruct Ht as [(_ & _ & ?) | [Ht _]]; [done|].
  by apply is_terminator_not_nil in Ht.
Qed.

Lemma lines_exact_concat_LF (ls : list (list N * list N)) (r : list N) :
  lines_exact ls -> concat (map (fun l => fst l ++ snd l) ls) = LF :: r ->
  first_is_LF ls.
Proof.
  destruct ls as [|[b t] ls]; [done|]. intros (Hb & Ht & _) E.
  cbn [map concat fst snd] in E. destruct b as [|c b].
  - destruct t as [|d t].
    + destruct Ht as [(_ & _ & ?) | [Ht _]]; [done|].
      by apply is_terminator_not_nil in Ht.
    + simpl in E. inversion E; subst. by exists t, ls.
  - simpl in E. inversion E; subst. by inversion Hb.
Qed.

(** Scanning the lines put back together gives the lines again. *)
Lemma scan_lines_rebuild (ls : list (list N * list N)) :
  lines_exact ls ->
  scan_lines [] (concat (map (fun l => fst l ++ snd l) ls)) = ls.
Proof.
  induction ls as [|[b t] ls IH]; [done|].
  intros (Hb & Ht & Hls). specialize (IH Hls).
  cbn [map concat fst snd]. rewrite <- app_assoc.
  rewrite scan_lines_app_nobreak by done. rewrite app_nil_r.
  destruct Ht as [(-> & -> & Hne) | [[(c & Hc & ->) | ->] Hadj]].
  - simpl. destruct (rev b) eqn:E.
    + apply (f_equal (@rev N)) in E. rewrite rev_involutive in E. done.
    + by rewrite <- E, rev_involutive.
  - simpl app. cbn [scan_lines]. rewrite Hc.
    destruct (concat (map (fun l => fst l ++ snd l) ls)) as [|d rest] eqn:E.
    + rewrite (lines_exact_concat_nil ls Hls E), rev_involutive. done.
    + destruct ((c =? CR) && (d =? LF)) eqn:F.
      * apply andb_true_iff in F as [F1 F2].
        apply N.eqb_eq in F1, F2. subst.
        destruct (Hadj eq_refl). by eapply lines_exact_concat_LF.
      * by rewrite IH, rev_involutive.
  - simpl app. cbn [scan_lines]. change (islinebreak CR) with true.
    cbv iota. change ((CR =? CR) && (LF =? LF)) with true. cbv iota.
    by rewrite IH, rev_involutive.
Qed.

Lemma scan_lines_break_exact cur c s :
  islinebreak c = true ->
  exists t s', (length s' <= length s)%nat /\ is_terminator t /\
               (t = [CR] -> forall r, s' <> LF :: r) /\
               scan_lines cur (c :: s) = (rev cur, t) :: scan_lines [] s'.
Proof.
  intros Hc. cbn [scan_lines]. rewrite Hc. destruct s as [|d s].
  - exists [c], []. split; [done|]. split; [left; eauto|]. done.
  - destruct ((c =? CR) && (d =? LF)) eqn:E.
    + apply andb_true_iff in E as [E1 E2]. apply N.eqb_eq in E1, E2. subst.
      exists [CR; LF], s. split; [simpl; lia|]. split; [by right|]. done.
    + exists [c], (d :: s). split; [done|]. split; [left; eauto|].
      split; [|done]. intros Ht r Hr. inversion Ht; inversion Hr; subst.
      by rewrite !N.eqb_refl in E.
Qed.

Lemma scan_lines_first_LF (s : list N) :
  first_is_LF (scan_lines [] s) -> exists r, s = LF :: r.
Proof.
  intros (t & ls' & E). destruct s as [|d s]; [done|].
  destruct (islinebreak d) eqn:Hd.
  - cbn [scan_lines] in E. rewrite Hd in E. destruct s as [|d2 s].
    + inversion E; subst. eauto.
    + destruct ((d =? CR) && (d2 =? LF)) eqn:F; inversion E; subst; eauto.
  - cbn [scan_lines] in E. rewrite Hd in E.
    destruct (scan_lines_started s [d] ltac:(done)) as (b & t' & rest & E').
    rewrite E' in E. inversion E.
Qed.

Lemma scan_lines_exact_bounded (n : nat) :
  forall s cur, (length s <= n)%nat ->
    Forall (fun c => islinebreak c = false) cur ->
    lines_exact (scan_lines cur s).
Proof.
  induction n as [|n IH]; intros s cur Hlen Hcur.
  - destruct s; [|simpl in Hlen; lia].
    destruct cur as [|c cur]; [done|]. cbn [scan_lines lines_exact].
    split; [by apply Forall_rev|]. split; [|done]. left.
    split; [done|]. split; [done|]. simpl. by destruct (rev cur).
  - destruct s as [|c s]; [apply (IH []); [simpl; lia | done]|].
    simpl in Hlen. destruct (islinebreak c) eqn:Hc.
    + destruct (scan_lines_break_exact cur c s Hc)
        as (t & s' & Hl & Ht & Hadj & ->).
      cbn [lines_exact]. split; [by apply Forall_rev|]. split.
      * right. split; [done|]. intros Hcr Hf.
        apply scan_lines_first_LF in Hf as [r Hr]. by eapply Hadj.
      * apply IH; [lia | done].
    + cbn [scan_lines]. rewrite Hc. apply IH; [lia|]. by constructor.
Qed.

Lemma indent_lines_exact (prefix : list N) (ls : list (list N * list N)) :
  Forall (fun c => islinebreak c = false) prefix ->
  lines_exact ls -> lines_exact (map (indent_line prefix) ls).
Proof.
  intros Hp. induction ls as [|[b t] ls IH]; [done|].
  intros (Hb & Ht & Hls). cbn [map lines_exact indent_line fst snd].
  split; [|split; [|by apply IH]].
  - destruct (nonempty _); [by apply Forall_app | done].
  - destruct Ht as [(-> & -> & Hne) | [Ht Hadj]].
    + left. split; [done|]. split; [done|].
      destruct (nonempty _); [|done]. by destruct prefix, b.
    + right. split; [done|]. intros Hcr (t' & ls' & E).
      apply (Hadj Hcr). destruct ls as [|[b2 t2] ls2]; [done|].
      cbn [map indent_line fst snd] in E. inversion E as [[E1 E2 E3]].
      exists t', ls2. f_equal. f_equal.
      destruct (nonempty _); [|done]. by destruct prefix, b2.
Qed.

Lemma indent_line_join (prefix : list N) (ls : list (list N * list N)) :
  map (fun line => if nonempty (strip line) then prefix ++ line else line)
      (map (fun l => fst l ++ snd l) ls)
  = map (fun l => fst l ++ snd l) (map (indent_line prefix) ls).
Proof.
  rewrite !map_map. apply map_ext. intros [b t]. unfold indent_line.
  cbn [fst snd]. destruct (nonempty _); [by rewrite app_assoc | done].
Qed.

(** X19: [comment] keeps the lines of the text and their terminators, and
    puts the prefix in front of exactly those that are not blank: splitting
    the commented text into lines gives the lines of the text, each
    non-blank one with the prefix; the number of lines is the same. *)
Theorem comment_lines (text mark : list N) (indent_level : nat) :
  Forall (fun c => islinebreak c = false) mark ->
  splitlines true (comment text mark indent_level)
  = map (fun line => if nonempty (strip line)
                     then (repeat SPACE indent_level ++ mark ++ u " ") ++ line
                     else line)
        (splitlines true text) /\
  length (splitlines false (comment text mark indent_level))
  = length (splitlines false text).
Proof.
  intros Hm.
  assert (Forall (fun c => islinebreak c = false)
                 (repeat SPACE indent_level ++ mark ++ u " ")) as Hp.
  { rewrite !Forall_app. split; [|split; [done | by repeat constructor]].
    apply Forall_forall. intros x Hx%list_elem_of_In%repeat_spec. by subst. }
  assert (scan_lines [] (comment text mark indent_level)
          = map (indent_line (repeat SPACE indent_level ++ mark ++ u " "))
                (scan_lines [] text)) as E.
  { unfold comment, textwrap_indent, splitlines. rewrite indent_line_join.
    apply scan_lines_rebuild. apply indent_lines_exact; [done|].
    by apply (scan_lines_exact_bounded (length text)). }
  unfold splitlines at 1 3. rewrite E. split.
  - unfold splitlines. by rewrite indent_line_join.
  - unfold splitlines. by rewrite !List.length_map.
Qed.

(** ** Ignored actions *)

Lemma all_examples_parts_remove_ignored (parser : ArgumentParser)
    (opts : gmap (list N) pyval) (a : Action) (ignored : gset (list N))
    (l2 : list Action) :
  canonical a ∈ ignored ->
  forall (l1 : list Action) (w0 : world),
    eval (get_config (u "ignore")) w0 = Ok ignored ->
    eval (all_examples_parts parser (l1 ++ a :: l2) opts) w0
    = eval (all_examples_parts parser (l1 ++ l2) opts) w0.
Proof.
  intros Hin l1. induction l1 as [|b l1 IH]; intros w0 Hg.
  - simpl app. cbn [all_examples_parts]. unfold eval at 1.
    rewrite bind_unfold, lift_long_option, bind_unfold.
    apply eval_ok_inv in Hg as [w1 Hg]. rewrite Hg.
    rewrite bool_decide_eq_true_2 by done.
    change (eval (all_examples_parts parser l2 opts) w1
            = eval (all_examples_parts parser l2 opts) w0).
    apply stable_eval; [apply stable_all_examples_parts|].
    by eapply get_config_extends.
  - simpl app. cbn [all_examples_parts]. unfold eval.
    rewrite !bind_unfold, !lift_long_option, !bind_unfold.
    destruct (eval_ok_inv _ _ _ Hg) as [w1 Hg1]. rewrite Hg1.
    pose proof (get_config_extends _ _ _ _ Hg1) as Hext.
    assert (eval (get_config (u "ignore")) w1 = Ok ignored) as Hg'
      by (by rewrite (Hext (u "ignore"))).
    destruct (bool_decide (canonical b ∈ ignored)).
    + by apply IH.
    + rewrite !bind_unfold.
      destruct (example_with_help parser b opts w1) as [[part w2]|e] eqn:E;
        [|done].
      rewrite !bind_unfold.
      pose proof (stable_step _ _ _ _ (stable_example_with_help _ _ _) E)
        as Hext2.
      assert (eval (get_config (u "ignore")) w2 = Ok ignored) as Hg2
        by (by rewrite (Hext2 (u "ignore"))).
      specialize (IH w2 Hg2). unfold eval in IH.
      destruct (all_examples_parts parser (l1 ++ a :: l2) opts w2)
        as [[ps w3]|e1];
        destruct (all_examples_parts parser (l1 ++ l2) opts w2)
        as [[ps' w3']|e2]; inversion IH; subst; done.
Qed.

Lemma all_examples_eval_parts (parser : ArgumentParser)
    (opts : gmap (list N) pyval) (l l' : list Action) (w : world) :
  eval (all_examples_parts parser l opts) w
  = eval (all_examples_parts parser l' opts) w ->
  eval (all_examples parser l opts) w = eval (all_examples parser l' opts) w.
Proof.
  intros H. unfold all_examples, eval in *. rewrite !bind_unfold.
  destruct (all_examples_parts parser l opts w) as [[ps w1]|e1];
    destruct (all_examples_parts parser l' opts w) as [[ps' w1']|e2];
    inversion H; subst; done.
Qed.

(** X20: an action whose canonical spelling is in the ignored set can be
    taken out of the list of actions, wherever it stands, without changing
    the document (or the error) that [all_examples] returns. *)
Theorem all_examples_remove_ignored (parser : ArgumentParser)
    (opts : gmap (list N) pyval) (a : Action) (l1 l2 : list Action)
    (w : world) (ignored : gset (list N)) :
  eval (get_config (u "ignore")) w = Ok ignored ->
  canonical a ∈ ignored ->
  eval (all_examples parser (l1 ++ a :: l2) opts) w
  = eval (all_examples parser (l1 ++ l2) opts) w.
Proof.
  intros Hg Hin. apply all_examples_eval_parts.
  by eapply all_examples_parts_remove_ignored.
Qed.

(** ** The tokenizer against the grammar of shell words *)

Lemma is_blank_whitespace c : char_in c shlex_whitespace = is_blank c.
Proof.
  unfold char_in, shlex_whitespace, is_blank. simpl.
  by destruct (c =? 32), (c =? 9), (c =? 13), (c =? 10).
Qed.

Lemma char_in_escape c : char_in c shlex_escape = (c =? 92).
Proof. unfold char_in, shlex_escape. simpl. by destruct (c =? 92). Qed.

Lemma char_in_quotes c : char_in c shlex_quotes = (c =? 39) || (c =? 34).
Proof.
  unfold char_in, shlex_quotes. simpl. by destruct (c =? 39), (c =? 34).
Qed.

Lemma lex_space_skip (bs : list N) :
  forallb is_blank bs = true ->
  forall rest, lex LSpace false [] (bs ++ rest) = lex LSpace false [] rest.
Proof.
  induction bs as [|b bs IH]; [done|]. intros [Hb Hbs]%andb_true_iff rest.
  cbn [app lex]. rewrite is_blank_whitespace, Hb. cbn [nonempty orb]. by apply IH.
Qed.

Lemma lex_space_start c quoted rest :
  is_blank c = false ->
  lex LSpace quoted [] (c :: rest) = lex LWord quoted [] (c :: rest).
Proof.
  intros Hc. cbn [lex]. rewrite is_blank_whitespace, Hc.
  rewrite char_in_escape, char_in_quotes.
  destruct (c =? 92) eqn:E; [|done].
  apply N.eqb_eq in E. by subst.
Qed.

Lemma lex_word_blank quoted token c rest :
  nonempty token || quoted = true -> is_blank c = true ->
  lex LWord quoted token (c :: rest)
  = rbind (lex LSpace false [] rest) (fun ts => Ok (token :: ts)).
Proof.
  intros Hq Hc. cbn [lex]. by rewrite is_blank_whitespace, Hc, Hq.
Qed.

Lemma lex_single_body (s : list N) :
  forallb (fun c => negb (c =? 39)) s = true ->
  forall quoted token rest,
    lex (LQuote 39) quoted token (s ++ 39 :: rest)
    = lex LWord true (token ++ s) rest.
Proof.
  induction s as [|c s IH]; intros Hs quoted token rest.
  - simpl. by rewrite app_nil_r.
  - apply andb_true_iff in Hs as [Hc Hs]. apply negb_true_iff in Hc.
    cbn [app lex]. rewrite Hc.
    replace (char_in c shlex_escape && char_in 39 shlex_escapedquotes)
      with false by (by destruct (char_in c shlex_escape)).
    rewrite IH by done. by rewrite <- app_assoc.
Qed.

Lemma lex_double_body (items : list dq_item) :
  forallb dq_item_ok items = true ->
  forall quoted token rest,
    lex (LQuote 34) quoted token (concat (map dq_item_text items) ++ 34 :: rest)
    = lex LWord true (token ++ concat (map dq_item_value items)) rest.
Proof.
  induction items as [|i items IH]; intros Hs quoted token rest.
  - simpl. by rewrite app_nil_r.
  - apply andb_true_iff in Hs as [Hi Hs].
    destruct i as [c|c].
    + apply andb_true_iff in Hi as [Hq Hb].
      apply negb_true_iff in Hq, Hb.
      cbn [map concat dq_item_text dq_item_value app lex].
      rewrite Hq, char_in_escape, Hb. cbn [andb].
      rewrite IH by done. by rewrite <- app_assoc.
    + cbn [map concat dq_item_text dq_item_value app lex].
      change (92 =? 34) with false. cbn iota.
      change (char_in 92 shlex_escape && char_in 34 shlex_escapedquotes)
        with true. cbn iota.
      cbn [is_quote_state]. unfold BACKSLASH.
      rewrite IH by done. f_equal.
      destruct (c =? 34), (c =? 92); simpl; by rewrite <- ?app_assoc.
Qed.

Lemma lex_segment (s : segment) :
  segment_ok s = true ->
  forall quoted token rest,
    lex LWord quoted token (segment_text s ++ rest)
    = lex LWord (quoted || segment_quoted s) (token ++ segment_value s) rest.
Proof.
  intros Hs quoted token rest. destruct s as [c|c|s|items].
  - cbn [segment_ok] in Hs.
    apply andb_true_iff in Hs as [[[Hb Hq]%andb_true_iff Hd]%andb_true_iff He].
    apply negb_true_iff in Hb, Hq, Hd, He.
    cbn [segment_text segment_value segment_quoted app lex].
    rewrite is_blank_whitespace, Hb, char_in_quotes, Hq, Hd, char_in_escape, He.
    cbn [orb]. by rewrite orb_false_r.
  - cbn [segment_text segment_value segment_quoted app lex].
    change (char_in 92 shlex_whitespace) with false.
    change (char_in 92 shlex_quotes) with false.
    change (char_in 92 shlex_escape) with true. cbn iota.
    cbn [is_quote_state]. by rewrite orb_false_r.
  - cbn [segment_text segment_value segment_quoted app lex].
    change (char_in 39 shlex_whitespace) with false.
    change (char_in 39 shlex_quotes) with true. cbn iota.
    rewrite <- app_assoc. cbn [app].
    rewrite lex_single_body by done. by rewrite orb_true_r.
  - cbn [segment_text segment_value segment_quoted app lex].
    change (char_in 34 shlex_whitespace) with false.
    change (char_in 34 shlex_quotes) with true. cbn iota.
    rewrite <- app_assoc. cbn [app].
    rewrite lex_double_body by done. by rewrite orb_true_r.
Qed.

Lemma lex_word (w : list segment) :
  forallb segment_ok w = true ->
  forall quoted token rest,
    lex LWord quoted token (word_text w ++ rest)
    = lex LWord (quoted || existsb segment_quoted w)
          (token ++ word_value w) rest.
Proof.
  unfold word_text, word_value.
  induction w as [|s w IH]; intros Hw quoted token rest.
  - simpl. by rewrite orb_false_r, app_nil_r.
  - apply andb_true_iff in Hw as [Hs Hw].
    cbn [map concat existsb]. rewrite <- app_assoc.
    rewrite lex_segment by done. rewrite IH by done.
    by rewrite orb_assoc, <- app_assoc.
Qed.

Lemma segment_text_head (s : segment) :
  segment_ok s = true ->
  exists c r, segment_text s = c :: r /\ is_blank c = false.
Proof.
  destruct s as [c|c|s|items]; intros Hs.
  - cbn [segment_ok] in Hs.
    apply andb_true_iff in Hs as [[[Hb _]%andb_true_iff _]%andb_true_iff _].
    apply negb_true_iff in Hb. by exists c, [].
  - by eexists _, _.
  - by eexists _, _.
  - by eexists _, _.
Qed.

Lemma word_text_head (w : list segment) :
  word_ok w = true ->
  exists c r, word_text w = c :: r /\ is_blank c = false.
Proof.
  destruct w as [|s w]; [done|]. intros [Hs _]%andb_true_iff.
  destruct (segment_text_head s Hs) as (c & r & E & Hc).
  exists c, (r ++ word_text w). unfold word_text in *. cbn [map concat].
  by rewrite E.
Qed.

Lemma word_emitted (w : list segment) :
  word_ok w = true ->
  nonempty (word_value w) || existsb segment_quoted w = true.
Proof.
  destruct w as [|s w]; [done|]. intros _.
  destruct s; unfold word_value; cbn [map concat segment_value existsb segment_quoted];
    try done; by rewrite orb_true_r.
Qed.

Lemma word_ok_segments (w : list segment) :
  word_ok w = true -> forallb segment_ok w = true.
Proof. by destruct w. Qed.

Lemma lex_words (l : list (list segment * list N)) :
  words_ok l = true ->
  lex LSpace false [] (words_text l) = Ok (words_values l).
Proof.
  unfold words_ok, words_text, words_values.
  induction l as [|[w sep] l IH]; [done|].
  intros [[Hw Hws]%andb_true_iff Hs]%andb_true_iff.
  cbn [seps_ok] in Hs.
  apply andb_true_iff in Hs as [[Hb Hne]%andb_true_iff Hs].
  cbn [map concat fst snd] in *.
  destruct (word_text_head w Hw) as (c & r & E & Hc).
  rewrite <- !app_assoc. rewrite E. cbn [app].
  rewrite lex_space_start by done.
  change (c :: r ++ sep ++ ?x) with ((c :: r) ++ sep ++ x). rewrite <- E.
  rewrite lex_word by (by apply word_ok_segments).
  cbn [orb app].
  pose proof (word_emitted w Hw) as Hem.
  destruct sep as [|b bs].
  - destruct l as [|x l]; [|done]. cbn [map concat app].
    by rewrite lex_word_end.
  - cbn [forallb] in Hb. apply andb_true_iff in Hb as [Hb Hbs].
    cbn [app]. rewrite lex_word_blank by done.
    rewrite lex_space_skip by done.
    rewrite IH by (apply andb_true_iff; by split). reflexivity.
Qed.

Lemma shlex_split_words (lead : list N) (l : list (list segment * list N)) :
  forallb is_blank lead = true -> words_ok l = true ->
  shlex_split (lead ++ words_text l) = Ok (words_values l).
Proof.
  intros Hl Hw. unfold shlex_split. rewrite lex_space_skip by done.
  by apply lex_words.
Qed.

(** ** White space and line boundaries, by code point *)

Lemma white_space_isspace c : char_in c white_space = isspace c.
Proof.
  apply eq_true_iff_eq. unfold char_in, white_space, isspace.
  cbn [existsb].
  rewrite !orb_true_iff, !andb_true_iff, !N.leb_le, !N.eqb_eq. lia.
Qed.

Lemma line_boundaries_islinebreak c :
  char_in c line_boundaries = islinebreak c.
Proof.
  apply eq_true_iff_eq. unfold char_in, line_boundaries, islinebreak.
  cbn [existsb].
  rewrite !orb_true_iff, !andb_true_iff, !N.leb_le, !N.eqb_eq. lia.
Qed.

Lemma all_white_isspace s : all_white s = forallb isspace s.
Proof.
  unfold all_white. induction s as [|c s IH]; [done|].
  cbn [forallb]. by rewrite white_space_isspace, IH.
Qed.

Lemma no_boundary_Forall s :
  no_boundary s = true -> Forall (fun c => islinebreak c = false) s.
Proof.
  unfold no_boundary. induction s as [|c s IH]; [by constructor|].
  cbn [forallb]. intros [Hc Hs]%andb_true_iff. constructor; [|by apply IH].
  apply negb_true_iff in Hc. by rewrite <- line_boundaries_islinebreak.
Qed.

Lemma lstrip_white (ws s : list N) :
  forallb isspace ws = true -> lstrip (ws ++ s) = lstrip s.
Proof.
  induction ws as [|c ws IH]; [done|]. intros [Hc Hs]%andb_true_iff.
  simpl. rewrite Hc. by apply IH.
Qed.

Lemma forallb_rev {A} (f : A -> bool) (l : list A) :
  forallb f (rev l) = forallb f l.
Proof.
  induction l as [|x l IH]; [done|]. simpl.
  rewrite forallb_app, IH. simpl. rewrite andb_true_r. apply andb_comm.
Qed.

Lemma strip_between (lead s trail : list N) :
  forallb isspace lead = true -> forallb isspace trail = true ->
  tight s -> strip (lead ++ s ++ trail) = s.
Proof.
  intros Hl Ht Hs. pose proof Hs as [(c & r & E & Hc & _) _].
  unfold strip. rewrite lstrip_white by done.
  assert (lstrip (s ++ trail) = s ++ trail) as ->.
  { rewrite E. simpl. by rewrite Hc. }
  unfold rstrip. rewrite rev_app_distr.
  rewrite lstrip_white by (by rewrite forallb_rev).
  pose proof (strip_tight s Hs) as Est. unfold strip, rstrip in Est.
  assert (lstrip s = s) as El by (rewrite E; simpl; by rewrite Hc).
  by rewrite El in Est.
Qed.

(** ** The file, line by line *)

Lemma forallb_boundaries t :
  forallb (fun c => char_in c line_boundaries) t = forallb islinebreak t.
Proof.
  induction t as [|c t IH]; [done|].
  cbn [forallb]. by rewrite line_boundaries_islinebreak, IH.
Qed.

Lemma split_args_file_line (l : file_line) :
  file_line_ok l = true ->
  split_args (file_line_text l) = Ok (file_line_values l).
Proof.
  destruct l as [ws|ws text|lead words trail]; cbn [file_line_ok file_line_text
    file_line_values].
  - intros [Hw Hb]%andb_true_iff.
    rewrite split_args_one_line by (by apply no_boundary_Forall).
    apply line_tokens_blank. by rewrite <- all_white_isspace.
  - intros [[Hw Hb]%andb_true_iff Ht]%andb_true_iff.
    rewrite split_args_one_line.
    + apply line_tokens_inert. right. apply (strip_head _ _ text).
      rewrite lstrip_white by (by rewrite <- all_white_isspace). reflexivity.
    + rewrite !Forall_app. split; [by apply no_boundary_Forall|].
      split; [by repeat constructor | by apply no_boundary_Forall].
  - intros H.
    apply andb_true_iff in H as [H Hend].
    apply andb_true_iff in H as [H Hstart].
    apply andb_true_iff in H as [H Hnb].
    apply andb_true_iff in H as [H Hok].
    apply andb_true_iff in H as [H Htb].
    apply andb_true_iff in H as [H Htw].
    apply andb_true_iff in H as [Hlw Hlb].
    rewrite all_white_isspace in Hlw, Htw.
    assert (tight (words_text words)) as Ht.
    { split.
      - destruct (words_text words) as [|c r]; [done|].
        apply andb_true_iff in Hstart as [Hc Hh].
        rewrite white_space_isspace in Hc. apply negb_true_iff in Hc, Hh.
        by exists c, r.
      - destruct (rev (words_text words)) as [|d r]; [done|].
        rewrite white_space_isspace in Hend. apply negb_true_iff in Hend.
        by exists d, r. }
    rewrite split_args_one_line.
    + unfold line_tokens. rewrite strip_between by done.
      destruct Ht as [(c & r & E & _ & Hh) _].
      assert (kept_line (words_text words) = true) as ->.
      { rewrite E. unfold kept_line. by rewrite Hh. }
      by apply (shlex_split_words []).
    + rewrite !Forall_app. by repeat split; apply no_boundary_Forall.
Qed.

Lemma split_args_file (lines : list (file_line * list N)) (last : file_line) :
  forallb terminated_ok lines = true -> file_line_ok last = true ->
  split_args (file_text lines last) = Ok (file_values lines last).
Proof.
  intros Hl Hlast. unfold file_text, file_values.
  induction lines as [|[l t] lines IH].
  - by apply split_args_file_line.
  - cbn [forallb] in Hl. apply andb_true_iff in Hl as [Hlt Hl].
    unfold terminated_ok in Hlt. cbn [fst snd] in Hlt.
    apply andb_true_iff in Hlt as [[Hok Hne]%andb_true_iff Hb].
    rewrite forallb_boundaries in Hb.
    cbn [map concat fst snd]. rewrite <- !app_assoc.
    rewrite split_args_app_sep; [| by destruct t | done].
    rewrite split_args_file_line by done. rewrite IH by done. reflexivity.
Qed.

(** C4: [split_args] is the parse step of the specification: the text is
    split into physical lines, the lines that are empty or start with the
    comment marker once the leading white space is trimmed are dropped,
    every other line is tokenized as a shell would, and the tokens are
    flattened in order.  Tokenizing respects quoting and escaping: words
    are separated by blanks; a backslash makes the next character plain;
    what stands between single quotes is taken as it is; between double
    quotes a backslash escapes the double quote and the backslash only.  A
    file made of blank lines, comment lines and lines of such words, each
    ended by line boundaries, parses to the values of its words in order.
    [split_args] returns [--name foo] on the sample text, the seven
    arguments of the sample with quotes and backslashes, and on the
    document rendered for [--name myproj] and [--license MIT] exactly these
    four tokens, whatever the help texts are wrapped into. *)
Theorem split_args_parses :
  (forall text, split_args text = parse_step text) /\
  (forall (lead : list N) (words : list (list segment * list N)),
     forallb is_blank lead = true -> words_ok words = true ->
     shlex_split (lead ++ words_text words) = Ok (words_values words)) /\
  (forall (lines : list (file_line * list N)) (last : file_line),
     forallb terminated_ok lines = true -> file_line_ok last = true ->
     split_args (file_text lines last) = Ok (file_values lines last)) /\
  split_args sample_text = Ok [u "--name"; u "foo"] /\
  split_args quoted_text
  = Ok [u "--name"; u "my project";
        u "--description";
        u "say " ++ [34] ++ u "hi" ++ [34] ++ u " \ \n";
        u "--url"; u "a bc"; u "#d"] /\
  (linesep_ok ->
   forall parser, exists doc w',
     all_examples parser [name_action; license_action] sample_opts
                  (fresh_world [edit_entry_point]) = Ok (doc, w') /\
     split_args doc = Ok [u "--name"; u "myproj"; u "--license"; u "MIT"]).
Proof.
  split; [exact split_args_parse_step|].
  split; [exact shlex_split_words|].
  split; [exact split_args_file|].
  split; [by vm_compute|]. split; [by vm_compute|].
  intros Hok parser. rewrite all_examples_eq.
  assert (exists w',
    example_lines parser [name_action; license_action] sample_opts
                  (fresh_world [edit_entry_point])
    = Ok ([(name_action, u " --name myproj");
           (license_action, u " --license MIT")], w')) as [w' ->].
  { eexists. vm_compute. reflexivity. }
  eexists _, _. split; [reflexivity|].
  rewrite split_args_document by done. by vm_compute.
Qed.

End Edit.

(** ** The theorems at the sample data *)


(** [--force] is set and not commented: rendered active. *)
Lemma example_no_value_active_witness :
  exists w',
    example_no_value sample_parser force_action force_opts (fresh_world [Edit])
    = Ok (u " " ++ canonical force_action, w').
Proof.
  eexists.
  apply (example_no_value_active sample_parser force_action force_opts
           (fresh_world [Edit])
           (list_to_set [u "--verbose"; u "--very-verbose"])).
  - by_compute.
  - not_elem_by_compute.
  - by vm_compute.
  - reflexivity.
Defined.

(** C2 as stated fails for an extension's flag: the destination
    ["extensions"] holds a truthy value (another extension is active),
    [--cirrus] is not in the commented set, and it is rendered commented. *)
Lemma example_no_value_extensions_dest_counterexample :
  let w := fresh_world [Edit; Travis] in
  let config : gset (list N) := list_to_set [u "--verbose"; u "--very-verbose"] in
  nargs_is_zero (nargs cirrus_action) = true /\
  truthy (opts_get travis_opts (dest cirrus_action)) = true /\
  eval (get_config (u "comment")) w = Ok config /\
  (canonical cirrus_action ∉ config) /\
  eval (example_no_value sample_parser cirrus_action travis_opts) w
  = Ok (u "# --cirrus") /\
  eval (example_no_value sample_parser cirrus_action travis_opts) w
  <> Ok (u " " ++ canonical cirrus_action).
Proof.
  intros w config. split; [by_compute|]. split; [by_compute|].
  split; [by_compute|]. split; [not_elem_by_compute|].
  split; [by_compute|]. by vm_compute.
Qed.

(** An empty list is rendered as the commented placeholder; a present value
    as the active form. *)
Lemma example_with_value_rendering_witness :
  eval (example_with_value sample_parser license_action empty_license_opts)
       (fresh_world [Edit])
  = Ok (u "# --license LICENSE") /\
  exists config w1,
    get_config (u "comment") (fresh_world [Edit]) = Ok (config, w1) /\
    (canonical license_action ∉ config) /\
    quoted_value (opts_get sample_opts (dest license_action)) = u "MIT".
Proof.
  pose proof (example_with_value_rendering sample_parser license_action
                empty_license_opts (fresh_world [Edit])) as [H1 _].
  pose proof (example_with_value_rendering sample_parser license_action
                sample_opts (fresh_world [Edit])) as [_ H2].
  cbv zeta in H1, H2. split.
  - destruct H1 as [H1 H1']; [right; left; by_compute|].
    rewrite H1, H1'; [by_compute | by vm_compute |].
    vm_compute. repeat constructor.
  - destruct (H2 (u " --license MIT")) as (config & w1 & Hg & _ & Hc & _ & _);
      [by_compute | by_compute |].
    exists config, w1. split; [done|]. split; [done|]. by_compute.
Defined.

(** C3 as stated fails for the empty string: the value is empty, and the
    line is active and carries the literal [''].  *)
Lemma example_with_value_empty_string_counterexample :
  opts_get empty_description_opts (dest description_action) = VAtom (AStr []) /\
  eval (example_with_value sample_parser description_action
                           empty_description_opts) (fresh_world [Edit])
  = Ok (u " --description ''") /\
  eval (example_with_value sample_parser description_action
                           empty_description_opts) (fresh_world [Edit])
  <> Ok (comment (strip (canonical description_action ++ u " "
                         ++ format_args sample_parser description_action
                                        (dest description_action)))
                 (u "#") 0).
Proof. split; [by_compute|]. split; [by_compute | by vm_compute]. Qed.

(** The round trip on a POSIX system, with short help texts. *)
Lemma split_args_parses_witness :
  file_text quoted_lines quoted_last_line = quoted_text /\
  shlex_split (u "  " ++ words_text [ (plain (u "a"), u "  ");
                                      ([Escaped 39; Single (u "b c")], []) ])
  = Ok [u "a"; u "'b c"] /\
  split_args (file_text quoted_lines quoted_last_line)
  = Ok [u "--name"; u "my project";
        u "--description";
        u "say " ++ [34] ++ u "hi" ++ [34] ++ u " \ \n";
        u "--url"; u "a bc"; u "#d"] /\
  exists doc w',
    all_examples posix_linesep wrap_short sample_parser
                 [name_action; license_action] sample_opts
                 (fresh_world [edit_entry_point])
    = Ok (doc, w') /\
    split_args doc = Ok [u "--name"; u "myproj"; u "--license"; u "MIT"].
Proof.
  destruct (split_args_parses posix_linesep wrap_short)
    as (_ & Hw & Hf & _ & _ & H).
  split; [reflexivity|]. split; [|split].
  - apply (Hw (u "  ")); reflexivity.
  - apply (Hf quoted_lines quoted_last_line); reflexivity.
  - apply H. by split.
Defined.

Lemma commented_or_blank_all (ls : list (list N)) :
  forallb commented_or_blankb ls = true ->
  forall line, line ∈ ls -> commented_or_blank line.
Proof.
  intros H line Hin. apply commented_or_blankb_spec.
  rewrite forallb_forall in H. apply H. by apply list_elem_of_In.
Qed.

(** Nothing is set: the document for [--verbose], [--name] and [--help] is
    all comments, and parses to no argument. *)
Lemma split_args_commented_document_witness :
  exists doc w',
    all_examples posix_linesep wrap_short sample_parser
                 [verbose_action; name_action; help_action] ∅
                 (fresh_world [Edit]) = Ok (doc, w') /\
    (forall line, line ∈ splitlines false doc -> commented_or_blank line) /\
    split_args doc = Ok [].
Proof.
  destruct (all_examples posix_linesep wrap_short sample_parser
              [verbose_action; name_action; help_action] ∅
              (fresh_world [Edit])) as [[doc w']|e] eqn:E;
    [|vm_compute in E; discriminate].
  exists doc, w'. split; [done|].
  assert (forall line, line ∈ splitlines false doc -> commented_or_blank line)
    as Hall.
  { apply commented_or_blank_all. vm_compute in E. inversion E. by_compute. }
  split; [exact Hall|].
  exact (proj1 (split_args_commented_document posix_linesep wrap_short
                  sample_parser [verbose_action; name_action; help_action] ∅
                  (fresh_world [Edit]) w' doc E) Hall).
Defined.

(** [--help] is ignored; [--verbose] and [--name] give one block each. *)
Lemma all_examples_blocks_witness :
  exists blocks,
    length blocks = 2%nat /\
    eval (all_examples posix_linesep wrap_short sample_parser
                       [help_action; verbose_action; name_action] sample_opts)
         (fresh_world [Edit])
    = Ok (join [LF; LF; LF] blocks).
Proof.
  eexists. split; [|
    apply (all_examples_blocks posix_linesep wrap_short sample_parser
             [help_action; verbose_action; name_action] sample_opts
             (fresh_world [Edit])
             {| cache := {[ u "ignore" :=
                              list_to_set [u "--help"; u "--version"; u "--edit"] ]};
                installed := [Edit] |}
             (list_to_set [u "--help"; u "--version"; u "--edit"])
             [u "# --verbose" ++ [LF] ++ u "    # (or alternatively: -v)" ++ [LF]
                ++ u "    # show additional information";
              u " --name myproj" ++ [LF] ++ u "    # (or alternatively: -n)"
                ++ [LF] ++ u "    # installable name"])].
  - reflexivity.
  - by_compute.
  - rewrite filter_cons_False by (intros H; apply H; elem_by_compute).
    rewrite filter_cons_True by not_elem_by_compute.
    rewrite filter_cons_True by not_elem_by_compute.
    rewrite filter_nil.
    repeat (constructor; [by_compute|]). constructor.
  - repeat constructor; by vm_compute.
Defined.

(** C6 as stated fails when a block is the empty string: a flag-less
    zero-arity action without help text and without a value is not ignored
    and its block is empty; the document is the other block alone, not the
    two blocks joined by three line breaks. *)
Lemma all_examples_empty_block_counterexample :
  let w := fresh_world [Edit] in
  let ignored : gset (list N) :=
    list_to_set [u "--help"; u "--version"; u "--edit"] in
  let name_block :=
    u " --name myproj" ++ [LF] ++ u "    # (or alternatively: -n)" ++ [LF]
      ++ u "    # installable name" in
  eval (get_config (u "ignore")) w = Ok ignored /\
  (canonical flagless_action ∉ ignored) /\
  (canonical name_action ∉ ignored) /\
  eval (example_with_help posix_linesep wrap_short sample_parser
                          flagless_action sample_opts) w = Ok [] /\
  eval (example_with_help posix_linesep wrap_short sample_parser
                          name_action sample_opts) w = Ok name_block /\
  eval (all_examples posix_linesep wrap_short sample_parser
                     [flagless_action; name_action] sample_opts) w
  = Ok name_block /\
  eval (all_examples posix_linesep wrap_short sample_parser
                     [flagless_action; name_action] sample_opts) w
  <> Ok (join [LF; LF; LF] [ []; name_block ]).
Proof.
  intros w ignored name_block. split; [by_compute|].
  split; [not_elem_by_compute|]. split; [not_elem_by_compute|].
  split; [by_compute|]. split; [by_compute|]. split; [by_compute|].
  by vm_compute.
Qed.

(** The ignored set with [Edit], [Travis] and [Cirrus] installed. *)
Lemma get_config_entry_points_declare_nothing_witness :
  exists w',
    get_config (u "ignore") (fresh_world [edit_entry_point])
    = Ok (list_to_set [u "--help"; u "--version"], w') /\
    u "--edit" ∈ contribution (u "ignore") Edit /\
    u "--edit" ∉ (list_to_set [u "--help"; u "--version"] : gset (list N)).
Proof.
  destruct (get_config_entry_points_declare_nothing (u "ignore")
              (fresh_world [edit_entry_point]) (or_introl eq_refl) eq_refl)
    as (base & w' & Hbase & Hg & _ & Hedit).
  - by repeat constructor.
  - rewrite CONFIG_ignore in Hbase. inversion Hbase; subst base.
    exists w'. split; [exact Hg|]. by apply Hedit.
Defined.

(** The quote opened on the second line is never closed. *)
Lemma split_args_malformed_witness :
  exists e', split_args malformed_text = Raise e'.
Proof.
  apply (split_args_malformed malformed_text (u " --name 'my project")
           (ValueError "No closing quotation")).
  - apply list_elem_of_In. vm_compute. right. left. reflexivity.
  - by_compute.
  - by_compute.
Defined.

(** In a fresh process, ["hide"] fails the assertion and ["comment"]
    returns a set. *)
Lemma get_config_kind_assertion_witness :
  get_config (u "hide") (fresh_world [Edit]) = Raise AssertionError /\
  exists s w', get_config (u "comment") (fresh_world [Edit]) = Ok (s, w').
Proof.
  split.
  - apply (get_config_kind_assertion (u "hide") (fresh_world [Edit])
             (cache_ok_fresh [Edit])); by vm_compute.
  - destruct (proj2 (get_config_kind_assertion (u "comment")
                       (fresh_world [Edit]) (cache_ok_fresh [Edit]))
                    (or_intror eq_refl)) as (s & w' & H & _).
    by exists s, w'.
Defined.



(** ** The further properties at the sample data *)

Lemma long_option_last_longest_witness :
  long_option verbose_action = Ok (u "--verbose").
Proof.
  apply (long_option_last_longest verbose_action [u "-v"] [] (u "--verbose")).
  - reflexivity.
  - repeat constructor; vm_compute; lia.
  - constructor.
Defined.

Lemma alternative_flags_others_witness :
  exists alts,
    Permutation alts [u "-v"] /\
    alternative_flags verbose_action
    = match alts with
      | [] => []
      | _ => u "(or alternatively: " ++ join (u " ") alts ++ u ")"
      end.
Proof.
  destruct (alternative_flags_others verbose_action [u "-v"] []
              (u "--verbose")) as (alts & Hp & _ & Ha & _).
  - reflexivity.
  - repeat constructor; vm_compute; lia.
  - constructor.
  - exists alts. by split.
Defined.

Lemma get_config_registry_order_witness :
  eval (get_config (u "comment")) (fresh_world [Edit; Cirrus])
  = eval (get_config (u "comment")) (fresh_world [Cirrus; Edit]).
Proof.
  apply get_config_registry_order; [reflexivity | reflexivity |].
  apply perm_swap.
Defined.

Lemma get_config_grows_witness :
  exists s1 s2 w1' w2',
    get_config (u "comment") (fresh_world [Edit]) = Ok (s1, w1') /\
    get_config (u "comment") (fresh_world [Edit; Cirrus]) = Ok (s2, w2') /\
    s1 ⊆ s2 /\ u "--verbose" ∈ s1.
Proof.
  pose proof (get_config_miss (u "comment") (fresh_world [Edit]) _
                eq_refl CONFIG_comment) as H1.
  pose proof (get_config_miss (u "comment") (fresh_world [Edit; Cirrus]) _
                eq_refl CONFIG_comment) as H2.
  eexists _, _, _, _. split; [exact H1|]. split; [exact H2|].
  destruct (get_config_grows (u "comment") (fresh_world [Edit])
              (fresh_world [Edit; Cirrus]) _ _ _ _ _
              eq_refl eq_refl
              ltac:(intros ext; simpl; rewrite !elem_of_cons; tauto)
              CONFIG_comment H1 H2) as [Hs Hb].
  split; [exact Hs|]. apply Hb. set_solver.
Defined.

Lemma all_examples_repeatable_witness :
  exists doc w',
    all_examples posix_linesep wrap_short sample_parser
                 [verbose_action; name_action] sample_opts (fresh_world [Edit])
    = Ok (doc, w') /\
    all_examples posix_linesep wrap_short sample_parser
                 [verbose_action; name_action] sample_opts
                 {| cache := cache w'; installed := [Edit; Cirrus] |}
    = Ok (doc, {| cache := cache w'; installed := [Edit; Cirrus] |}).
Proof.
  destruct (all_examples posix_linesep wrap_short sample_parser
              [verbose_action; name_action] sample_opts (fresh_world [Edit]))
    as [[doc w']|e] eqn:E; [|vm_compute in E; discriminate].
  exists doc, w'. split; [done|].
  by apply (all_examples_repeatable _ _ _ _ _ _ _ _ E).
Defined.

Lemma example_with_value_round_trip_witness :
  exists out w',
    example_with_value sample_parser license_action sample_opts
                       (fresh_world [Edit]) = Ok (out, w') /\
    split_args out = Ok [u "--license"; u "MIT"].
Proof.
  destruct (example_with_value_round_trip sample_parser license_action
              sample_opts (fresh_world [Edit])
              {| cache := {[ u "comment" :=
                               list_to_set [u "--verbose"; u "--very-verbose"] ]};
                 installed := [Edit] |}
              (list_to_set [u "--verbose"; u "--very-verbose"]))
    as (out & H1 & _ & H2).
  - by_compute.
  - not_elem_by_compute.
  - by_compute.
  - by vm_compute.
  - by_compute.
  - vm_compute. repeat constructor.
  - exists out. eexists. split; [exact H1|]. rewrite H2. by_compute.
Defined.

Lemma example_no_value_round_trip_witness :
  exists out w',
    example_no_value sample_parser force_action force_opts (fresh_world [Edit])
    = Ok (out, w') /\
    (split_args out = Ok [u "--force"] \/ split_args out = Ok []).
Proof.
  destruct (example_no_value sample_parser force_action force_opts
              (fresh_world [Edit])) as [[out w']|e] eqn:E;
    [|vm_compute in E; discriminate].
  exists out, w'. split; [done|].
  destruct (example_no_value_round_trip _ _ _ _ _ _ E) as [[_ H] | [_ H]];
    [by vm_compute | by_compute | by left | by right].
Defined.

Lemma example_with_value_commented_set_witness :
  exists out,
    eval (example_with_value sample_parser license_action sample_opts)
         (fresh_world [Edit; Unlicensed]) = Ok out /\
    split_args out = Ok [].
Proof.
  destruct (example_with_value_commented_set sample_parser license_action
              sample_opts (fresh_world [Edit; Unlicensed])
              {| cache := {[ u "comment" :=
                               list_to_set [u "--verbose"; u "--very-verbose";
                                            u "--license"] ]};
                 installed := [Edit; Unlicensed] |}
              (list_to_set [u "--verbose"; u "--very-verbose"; u "--license"]))
    as (out & H1 & _ & H2).
  - by_compute.
  - elem_by_compute.
  - by exists out.
Defined.

Lemma posix_linesep_ok : linesep_ok posix_linesep.
Proof. by split. Qed.

Lemma split_args_all_examples_witness :
  exists doc w' ls,
    all_examples posix_linesep wrap_short sample_parser
                 [help_action; verbose_action; name_action] sample_opts
                 (fresh_world [Edit]) = Ok (doc, w') /\
    example_lines sample_parser [help_action; verbose_action; name_action]
                  sample_opts (fresh_world [Edit]) = Ok (ls, w') /\
    split_args doc
    = foldr (fun al acc => rapp (split_args (snd al)) acc) (Ok []) ls.
Proof.
  destruct (all_examples posix_linesep wrap_short sample_parser
              [help_action; verbose_action; name_action] sample_opts
              (fresh_world [Edit])) as [[doc w']|e] eqn:E;
    [|vm_compute in E; discriminate].
  destruct (split_args_all_examples _ _ _ _ _ _ _ _ posix_linesep_ok E)
    as (ls & H1 & H2).
  by exists doc, w', ls.
Defined.

Lemma split_args_nothing_set_witness :
  exists doc w',
    all_examples posix_linesep wrap_short sample_parser
                 [verbose_action; name_action; cirrus_action] ∅
                 (fresh_world [Edit; Cirrus]) = Ok (doc, w') /\
    split_args doc = Ok [].
Proof.
  destruct (all_examples posix_linesep wrap_short sample_parser
              [verbose_action; name_action; cirrus_action] ∅
              (fresh_world [Edit; Cirrus])) as [[doc w']|e] eqn:E;
    [|vm_compute in E; discriminate].
  exists doc, w'. split; [done|].
  apply (split_args_nothing_set _ _ _ _ _ _ _ _ posix_linesep_ok) in E;
    [done | repeat constructor | reflexivity].
Defined.

Lemma command_unedited_witness :
  (exists w',
     command posix_linesep wrap_short sample_header expand_nothing
             edit_unchanged cli_main_done sample_parser sample_opts
             (fresh_world [edit_entry_point])
     = cli_main_done [u "--name"; u "myproj"; u "--license"; u "MIT"] w') /\
  command posix_linesep wrap_short sample_header expand_nothing
          edit_unchanged cli_main_done sample_parser multiline_name_opts
          (fresh_world [edit_entry_point])
  = Raise (ValueError "No closing quotation").
Proof.
  split.
  - destruct (all_examples posix_linesep wrap_short sample_parser
                (_actions sample_parser) sample_opts
                (fresh_world [edit_entry_point]))
      as [[examples w']|e] eqn:E; [|vm_compute in E; discriminate].
    exists w'.
    rewrite (command_unedited posix_linesep wrap_short sample_header
               expand_nothing edit_unchanged cli_main_done sample_parser
               sample_opts sample_opts (fresh_world [edit_entry_point]) w'
               examples posix_linesep_ok eq_refl eq_refl E eq_refl).
    vm_compute in E. inversion E. reflexivity.
  - destruct (all_examples posix_linesep wrap_short sample_parser
                (_actions sample_parser) multiline_name_opts
                (fresh_world [edit_entry_point]))
      as [[examples w']|e] eqn:E; [|vm_compute in E; discriminate].
    rewrite (command_unedited posix_linesep wrap_short sample_header
               expand_nothing edit_unchanged cli_main_done sample_parser
               multiline_name_opts multiline_name_opts
               (fresh_world [edit_entry_point]) w'
               examples posix_linesep_ok eq_refl eq_refl E eq_refl).
    vm_compute in E. inversion E. reflexivity.
Defined.

Lemma comment_blank_witness :
  comment (u "  " ++ [LF]) (u "#") INDENT_LEVEL = u "  " ++ [LF].
Proof. by apply comment_blank. Defined.

Lemma comment_no_argument_witness :
  split_args (comment (u "--name 'x" ++ [LF] ++ u "--force") (u "#!") 2) = Ok [].
Proof.
  apply (comment_no_argument _ _ _ (u "!")); [reflexivity|].
  by repeat constructor.
Defined.

Lemma split_args_compose_witness :
  split_args (u " --force" ++ [CR; LF] ++ u " --name x")
  = Ok [u "--force"; u "--name"; u "x"].
Proof.
  destruct (split_args_compose (u " --force") (u " --name x") [CR; LF] [] 0)
    as [H _]; [done | done |].
  rewrite H. by_compute.
Defined.

Lemma all_examples_nonempty_blocks_witness :
  eval (all_examples posix_linesep wrap_short sample_parser
                     [flagless_action; name_action] sample_opts)
       (fresh_world [Edit])
  = Ok (u " --name myproj" ++ [LF] ++ u "    # (or alternatively: -n)" ++ [LF]
          ++ u "    # installable name").
Proof.
  pose proof (all_examples_nonempty_blocks posix_linesep wrap_short
                sample_parser [flagless_action; name_action] sample_opts
                (fresh_world [Edit])
                {| cache := {[ u "ignore" :=
                                 list_to_set [u "--help"; u "--version"; u "--edit"] ]};
                   installed := [Edit] |}
                (list_to_set [u "--help"; u "--version"; u "--edit"])
                [ []; u " --name myproj" ++ [LF]
                        ++ u "    # (or alternatively: -n)" ++ [LF]
                        ++ u "    # installable name" ]) as H.
  rewrite H.
  - by_compute.
  - by_compute.
  - rewrite filter_cons_True by not_elem_by_compute.
    rewrite filter_cons_True by not_elem_by_compute.
    rewrite filter_nil. repeat (constructor; [by_compute|]). constructor.
Defined.

Lemma command_malformed_witness :
  exists e',
    command posix_linesep wrap_short sample_header expand_nothing
            edit_malformed cli_main_done sample_parser sample_opts
            (fresh_world [Edit]) = Raise e'.
Proof.
  destruct (all_examples posix_linesep wrap_short sample_parser
              (_actions sample_parser) sample_opts (fresh_world [Edit]))
    as [[examples w']|e] eqn:E; [|vm_compute in E; discriminate].
  apply (command_malformed posix_linesep wrap_short sample_header
           expand_nothing edit_malformed cli_main_done sample_parser
           sample_opts sample_opts (fresh_world [Edit]) w' examples
           malformed_text (u " --name 'my project")
           (ValueError "No closing quotation")).
  - reflexivity.
  - exact E.
  - reflexivity.
  - apply list_elem_of_In. vm_compute. right. left. reflexivity.
  - by_compute.
  - by_compute.
Defined.

Lemma split_args_blank_witness :
  split_args (u "  " ++ [LF; 160; CR; LF; 9]) = Ok [].
Proof. by apply split_args_blank. Defined.

Lemma all_examples_state_witness :
  exists doc w',
    all_examples posix_linesep wrap_short sample_parser
                 [verbose_action; name_action] sample_opts (fresh_world [Edit])
    = Ok (doc, w') /\
    installed w' = [Edit] /\ (size (cache w') <= 2)%nat.
Proof.
  destruct (all_examples posix_linesep wrap_short sample_parser
              [verbose_action; name_action] sample_opts (fresh_world [Edit]))
    as [[doc w']|e] eqn:E; [|vm_compute in E; discriminate].
  exists doc, w'. split; [done|].
  destruct (all_examples_state _ _ _ _ _ _ _ _ (cache_ok_fresh [Edit]) E)
    as (H1 & _ & H2 & _).
  by split.
Defined.

Lemma comment_lines_witness :
  splitlines true (comment (u "a" ++ [LF; LF] ++ u "b") (u "#") INDENT_LEVEL)
  = [u "    # a" ++ [LF]; [LF]; u "    # b"].
Proof.
  destruct (comment_lines (u "a" ++ [LF; LF] ++ u "b") (u "#") INDENT_LEVEL)
    as [H _]; [by repeat constructor|].
  rewrite H. by_compute.
Defined.

Lemma all_examples_remove_ignored_witness :
  eval (all_examples posix_linesep wrap_short sample_parser
                     ([verbose_action] ++ help_action :: [name_action])
                     sample_opts) (fresh_world [Edit])
  = eval (all_examples posix_linesep wrap_short sample_parser
                       ([verbose_action] ++ [name_action]) sample_opts)
         (fresh_world [Edit]).
Proof.
  apply (all_examples_remove_ignored posix_linesep wrap_short sample_parser
           sample_opts help_action [verbose_action] [name_action]
           (fresh_world [Edit])
           (list_to_set [u "--help"; u "--version"; u "--edit"])).
  - by_compute.
  - elem_by_compute.
Defined.

